(** * Transcript browser: filter/sort pipeline, detail loader and chat client

    A shallow embedding of [frontend/app.js] and [frontend/chat.js].

    Conventions of the embedding.
    - A JavaScript string is a [string]: a sequence of code units.  Rocq's
      [ascii] gives the code units 0..255, on which the built-ins
      [trim], [toLowerCase] and the regular-expression class [\s] are
      modelled exactly.
    - A JavaScript integer is a [Z]; an array length or index is a [nat].
    - Arrays of episode records are objects of a store ([arrays]), named by
      a location: [AppState.allEpisodes] and [indexData.episodes] are two
      names of the same array, and [Array.prototype.sort] updates the array
      it is called on.  No statement of the source assigns to a field of an
      episode record, so records are immutable values inside the arrays.
    - [indexData.all_keywords] has a single name, so it is kept by value
      inside the index document; sorting it in place replaces that field.
    - A [Set] of strings is the list of its members in insertion order,
      which is what [Array.from] and [size] observe.
    - The network is an input: each asynchronous function receives the
      outcome of its single [fetch] and runs to completion.
    - Timers and [localStorage] are the browser's: a pending timer runs
      when an event says so, and the storage is a map from strings to
      strings.

    Not embedded: the functions that only build markup or switch classes
    ([renderEpisodes], [renderEpisodeDetail], [toggleAIChat],
    [showLoading]), [formatNumber], whose result depends on the locale, and
    the fuzzy search of [search.js], which is the Fuse library's. *)

From Stdlib Require Import ZArith List Ascii String.
From Stdlib Require Import Sorting.Sorted Sorting.Permutation.
From stdpp Require Import gmap strings list fin_maps pretty.

(** ** Strings: the built-ins the source calls *)

Module JSString.

(** ECMAScript WhiteSpace and LineTerminator code units below 256: TAB, LF,
    VT, FF, CR, SPACE and NO-BREAK SPACE.  [trim] and [\s] share this set. *)
Definition isWhiteSpace (c : ascii) : bool :=
  let n := nat_of_ascii c in
  ((9 <=? n) && (n <=? 13) || (n =? 32) || (n =? 160))%nat.

Fixpoint trimStart (s : string) : string :=
  match s with
  | String c s' => if isWhiteSpace c then trimStart s' else s
  | EmptyString => EmptyString
  end.

(** [trimEnd] keeps a character when it is not white space or when
    something remains after it. *)
Fixpoint trimEnd (s : string) : string :=
  match s with
  | String c s' =>
      match trimEnd s' with
      | EmptyString => if isWhiteSpace c then EmptyString else String c EmptyString
      | t => String c t
      end
  | EmptyString => EmptyString
  end.

Definition trim (s : string) : string := trimEnd (trimStart s).

(** Lower-casing of one code unit: A-Z, and the Latin-1 capitals
    U+00C0..U+00DE except the multiplication sign U+00D7. *)
Definition lowerChar (c : ascii) : ascii :=
  let n := nat_of_ascii c in
  if ((65 <=? n) && (n <=? 90)
      || (192 <=? n) && (n <=? 222) && negb (n =? 215))%nat
  then ascii_of_nat (n + 32) else c.

Fixpoint toLowerCase (s : string) : string :=
  match s with
  | String c s' => String (lowerChar c) (toLowerCase s')
  | EmptyString => EmptyString
  end.

(** [s.startsWith(p)] *)
Fixpoint startsWith (s p : string) {struct p} : bool :=
  match p, s with
  | EmptyString, _ => true
  | String a p', String b s' => if Ascii.eqb a b then startsWith s' p' else false
  | String _ _, EmptyString => false
  end.

(** [s.includes(q)]: does [q] occur in [s] at some position? *)
Fixpoint includes (s q : string) : bool :=
  startsWith s q ||
  match s with
  | String _ s' => includes s' q
  | EmptyString => false
  end.

(** [s.substring(0, n)] *)
Fixpoint take (n : nat) (s : string) : string :=
  match n, s with
  | S n', String c s' => String c (take n' s')
  | _, _ => EmptyString
  end.

(** [parts.join(sep)] *)
Fixpoint join (sep : string) (parts : list string) : string :=
  match parts with
  | [] => EmptyString
  | [p] => p
  | p :: ps => p +:+ sep +:+ join sep ps
  end.

(** A string is truthy when it is not empty. *)
Definition truthy (s : string) : bool :=
  match s with EmptyString => false | _ => true end.

Definition newline : string := String (ascii_of_nat 10) EmptyString.

Fixpoint spaces (n : nat) : string :=
  match n with O => EmptyString | S n' => String " "%char (spaces n') end.

End JSString.

(** ** Arrays: the methods the source calls *)

Module JSArray.

Section Methods.
Context {A : Type}.

(** [arr.slice(0, n)] *)
Definition sliceTo (n : nat) (arr : list A) : list A := firstn n arr.

(** [arr.slice(-n)]: the last [n] elements, the whole array when it is
    shorter. *)
Definition sliceLast (n : nat) (arr : list A) : list A :=
  skipn (length arr - n) arr.

(** [Array.prototype.sort] with a comparator.  ECMAScript requires the
    sort to be stable, and with a consistent comparator that fixes the
    result: the permutation of the array that is in order and keeps tied
    elements as they stood.  It is computed here by stable insertion;
    [cmp a b <= 0] keeps [a] before [b]. *)
Fixpoint insertSorted (cmp : A -> A -> Z) (x : A) (arr : list A) : list A :=
  match arr with
  | [] => [x]
  | y :: arr' =>
      if (cmp x y <=? 0)%Z then x :: y :: arr' else y :: insertSorted cmp x arr'
  end.

Fixpoint sort (cmp : A -> A -> Z) (arr : list A) : list A :=
  match arr with
  | [] => []
  | x :: arr' => insertSorted cmp x (sort cmp arr')
  end.

(** The order a comparator asks for: [a] may stand before [b]. *)
Definition inOrder (cmp : A -> A -> Z) (a b : A) : Prop := (cmp a b <= 0)%Z.
End Methods.

(** [arr.includes(k)] on an array of strings *)
Definition includes (arr : list string) (k : string) : bool :=
  existsb (String.eqb k) arr.

End JSArray.

(** [Set] of strings, in insertion order. *)
Module JSSet.

Definition t := list string.

Definition has (s : t) (k : string) : bool := existsb (String.eqb k) s.

Definition add (k : string) (s : t) : t := if has s k then s else s ++ [k].

Definition delete (k : string) (s : t) : t :=
  List.filter (fun x => negb (String.eqb k x)) s.

Definition size (s : t) : nat := length s.

Definition toArray (s : t) : list string := s.

End JSSet.

(** ** Data model *)

Module Model.

Record EpisodeRecord := {
  slug : string;
  guest : string;
  title : string;
  description : string;
  keywords : list string;
  duration : string;
  duration_seconds : Z;
  view_count : Z;
  youtube_url : string;
  transcript_path : string
}.

(** Name of an array of episode records in the store. *)
Definition loc := nat.

Record IndexDocument := {
  total_episodes : Z;
  all_keywords : list string;
  episodes : loc
}.

(** [{ ...episode, fullTranscript: parsed.content }] *)
Record CurrentEpisode := {
  shown : EpisodeRecord;
  fullTranscript : string
}.

Record AppState := {
  arrays : gmap loc (list EpisodeRecord);
  indexData : option IndexDocument;
  allEpisodes : loc;
  filteredEpisodes : loc;
  selectedKeywords : JSSet.t;
  currentSort : string;
  searchQuery : string;
  currentEpisode : option CurrentEpisode
}.

(** [String.prototype.localeCompare] depends on the host's locale data; it
    is an interface of the embedding. *)
Class Collator := localeCompare : string -> string -> Z.

(** What the index file holds once parsed. *)
Record IndexPayload := {
  payload_total : Z;
  payload_keywords : list string;
  payload_episodes : list EpisodeRecord
}.

End Model.

Import Model.

(** The regular expression of [parseTranscript] as a backtracking matcher.
    Under the [s] flag and anchored at both ends it reads: three dashes,
    white space [\s*], a line feed, any text (lazy), a line feed and three
    dashes, white space [\s*], a line feed, and group 1: any text (greedy)
    up to the end of the input.  Each piece maps the input that is left to
    the inputs left after each way of matching it, the way the engine tries
    first at the head. *)
Module Frontmatter.

Fixpoint stripPrefix (p s : string) {struct p} : option string :=
  match p, s with
  | EmptyString, _ => Some s
  | String a p', String b s' => if Ascii.eqb a b then stripPrefix p' s' else None
  | String _ _, EmptyString => None
  end.

(** A literal. *)
Definition lit (p : string) (s : string) : list string :=
  match stripPrefix p s with
  | Some rest => [rest]
  | None => []
  end.

(** [\s*], greedy: the longest run of white space first. *)
Fixpoint wsStar (s : string) : list string :=
  match s with
  | String c s' => if JSString.isWhiteSpace c then wsStar s' ++ [s] else [s]
  | EmptyString => [s]
  end.

(** [.*?] under the [s] flag, lazy: the shortest match first. *)
Fixpoint anyLazy (s : string) : list string :=
  s :: match s with
       | String _ s' => anyLazy s'
       | EmptyString => []
       end.

(** Group 1 and the end anchor, under the [s] flag and without [m]: the
    greedy star takes all that is left, where the anchor holds; the group
    is that text. *)
Definition restGroup (s : string) : list string := [s].

(** One piece after another: every way of matching [next] after every way
    of matching [first], in the order of a depth-first search. *)
Definition andThen (first next : string -> list string) (s : string)
  : list string :=
  flat_map next (first s).

Infix ">>>" := andThen (at level 61, left associativity).

(** Group 1 of every way the whole pattern matches from position 0, in the
    order of the engine's search.  [^] without the [m] flag allows no other
    start. *)
Definition pattern : string -> list string :=
  lit "---" >>> wsStar >>> lit JSString.newline >>> anyLazy
    >>> lit (JSString.newline +:+ "---") >>> wsStar >>> lit JSString.newline
    >>> restGroup.

Definition captures (fullText : string) : list string := pattern fullText.

(** [fullText.match(...)]: [match[1]] of the first match, if any. *)
Definition matchGroup (fullText : string) : option string :=
  head (captures fullText).

End Frontmatter.

(** ** frontend/app.js *)

Module App.

Definition readArray (st : AppState) (l : loc) : list EpisodeRecord :=
  default [] (arrays st !! l).

(** The array behind [AppState.allEpisodes] and the one behind
    [AppState.filteredEpisodes]. *)
Definition allList (st : AppState) : list EpisodeRecord :=
  readArray st (allEpisodes st).

Definition displayed (st : AppState) : list EpisodeRecord :=
  readArray st (filteredEpisodes st).

Definition newArray (st : AppState) : loc := fresh (dom (arrays st)).

(** The state literal at the top of the file: two distinct empty arrays. *)
Definition initial : AppState :=
  {| arrays := {[ 0 := []; 1 := [] ]};
     indexData := None;
     allEpisodes := 0;
     filteredEpisodes := 1;
     selectedKeywords := [];
     currentSort := "views";
     searchQuery := "";
     currentEpisode := None |}.

(** [loadIndex].  [Some p] is an index that parsed and has the shape of the
    data model.  [None] stands for the failures that throw before anything
    is assigned: a fetch that is rejected, a response that is not ok, a
    body that is not JSON; the catch block only alerts.  A body that parses
    but lacks the fields of the data model is outside the model.
    [allEpisodes] is the very array of the index, [filteredEpisodes] a copy
    of it. *)
Definition loadIndex (fetched : option IndexPayload) (st : AppState) : AppState :=
  match fetched with
  | None => st
  | Some p =>
      let a := newArray st in
      let heap1 := <[a := payload_episodes p]> (arrays st) in
      let f := fresh (dom heap1) in
      {| arrays := <[f := payload_episodes p]> heap1;
         indexData := Some {| total_episodes := payload_total p;
                              all_keywords := payload_keywords p;
                              episodes := a |};
         allEpisodes := a;
         filteredEpisodes := f;
         selectedKeywords := selectedKeywords st;
         currentSort := currentSort st;
         searchQuery := searchQuery st;
         currentEpisode := currentEpisode st |}
  end.

(** [keywordCounts[keyword] = (keywordCounts[keyword] || 0) + 1] over every
    keyword of every episode.  The object is used as a map, and it is one
    for the keys that name no property of [Object.prototype]; for the
    others ([constructor], [toString], ...) the object already holds a
    function, and they are outside the model: what is proved of the counts
    is proved for the other keys. *)
Definition countKeyword (counts : gmap string Z) (keyword : string) : gmap string Z :=
  <[keyword := (default 0 (counts !! keyword) + 1)%Z]> counts.

Definition keywordCounts (eps : list EpisodeRecord) : gmap string Z :=
  foldl (fun counts episode => foldl countKeyword counts (keywords episode)) ∅ eps.

Definition countOf (counts : gmap string Z) (keyword : string) : Z :=
  default 0%Z (counts !! keyword).

(** [renderKeywordFilters]: the checkbox labels, keyword and count, and the
    state afterwards.  [Array.prototype.sort] sorts [all_keywords] where it
    is, in the index document. *)
Definition renderKeywordFilters (st : AppState) : AppState * list (string * Z) :=
  match indexData st with
  | None => (st, [])
  | Some idx =>
      let counts := keywordCounts (allList st) in
      let sortedKeywords :=
        JSArray.sort (fun a b => (countOf counts b - countOf counts a)%Z)
                     (all_keywords idx) in
      ({| arrays := arrays st;
          indexData := Some {| total_episodes := total_episodes idx;
                               all_keywords := sortedKeywords;
                               episodes := episodes idx |};
          allEpisodes := allEpisodes st;
          filteredEpisodes := filteredEpisodes st;
          selectedKeywords := selectedKeywords st;
          currentSort := currentSort st;
          searchQuery := searchQuery st;
          currentEpisode := currentEpisode st |},
       map (fun keyword => (keyword, countOf counts keyword)) sortedKeywords)
  end.

(** The keyword step of [applyFilters]. *)
Definition hasAllKeywords (selected : JSSet.t) (episode : EpisodeRecord) : bool :=
  forallb (fun keyword => JSArray.includes (keywords episode) keyword)
          (JSSet.toArray selected).

Definition keywordStep (selected : JSSet.t) (filtered : list EpisodeRecord)
  : list EpisodeRecord :=
  if (0 <? JSSet.size selected)%nat
  then List.filter (hasAllKeywords selected) filtered
  else filtered.

(** The search step.  The template literal puts guest, title, description
    and the keywords joined by spaces on a line each, behind the indentation
    of the source. *)
Definition searchTemplate (episode : EpisodeRecord) : string :=
  JSString.newline +:+ JSString.spaces 16 +:+ guest episode +:+
  JSString.newline +:+ JSString.spaces 16 +:+ title episode +:+
  JSString.newline +:+ JSString.spaces 16 +:+ description episode +:+
  JSString.newline +:+ JSString.spaces 16 +:+
    JSString.join " " (keywords episode) +:+
  JSString.newline +:+ JSString.spaces 12.

Definition searchText (episode : EpisodeRecord) : string :=
  JSString.toLowerCase (searchTemplate episode).

Definition matchesSearch (query : string) (episode : EpisodeRecord) : bool :=
  JSString.includes (searchText episode) query.

Definition searchStep (query : string) (filtered : list EpisodeRecord)
  : list EpisodeRecord :=
  if JSString.truthy query
  then List.filter (matchesSearch query) filtered
  else filtered.

Section Pipeline.
Context `{Collator}.

(** The [switch] of [sortEpisodes]; any other value sorts nothing. *)
Definition sortedBy (mode : string) (eps : list EpisodeRecord)
  : list EpisodeRecord :=
  if String.eqb mode "views"
  then JSArray.sort (fun a b => (view_count b - view_count a)%Z) eps
  else if String.eqb mode "duration"
  then JSArray.sort (fun a b => (duration_seconds b - duration_seconds a)%Z) eps
  else if String.eqb mode "title"
  then JSArray.sort (fun a b => localeCompare (guest a) (guest b)) eps
  else eps.

(** [sortEpisodes] sorts the array behind [filteredEpisodes] in place. *)
Definition sortEpisodes (st : AppState) : AppState :=
  {| arrays := alter (sortedBy (currentSort st)) (filteredEpisodes st) (arrays st);
     indexData := indexData st;
     allEpisodes := allEpisodes st;
     filteredEpisodes := filteredEpisodes st;
     selectedKeywords := selectedKeywords st;
     currentSort := currentSort st;
     searchQuery := searchQuery st;
     currentEpisode := currentEpisode st |}.

(** [applyFilters]: [filtered] starts as a copy of [allEpisodes]; the
    array it ends as becomes [filteredEpisodes] and is then sorted.
    ([renderEpisodes] and [updateSearchStats] write to the page only.) *)
Definition applyFilters (st : AppState) : AppState :=
  let filtered :=
    searchStep (searchQuery st)
      (keywordStep (selectedKeywords st) (allList st)) in
  let f := newArray st in
  sortEpisodes
    {| arrays := <[f := filtered]> (arrays st);
       indexData := indexData st;
       allEpisodes := allEpisodes st;
       filteredEpisodes := f;
       selectedKeywords := selectedKeywords st;
       currentSort := currentSort st;
       searchQuery := searchQuery st;
       currentEpisode := currentEpisode st |}.

Definition handleKeywordFilter (keyword : string) (checked : bool)
    (st : AppState) : AppState :=
  applyFilters
    {| arrays := arrays st;
       indexData := indexData st;
       allEpisodes := allEpisodes st;
       filteredEpisodes := filteredEpisodes st;
       selectedKeywords :=
         if checked then JSSet.add keyword (selectedKeywords st)
         else JSSet.delete keyword (selectedKeywords st);
       currentSort := currentSort st;
       searchQuery := searchQuery st;
       currentEpisode := currentEpisode st |}.

Definition handleSearch (value : string) (st : AppState) : AppState :=
  applyFilters
    {| arrays := arrays st;
       indexData := indexData st;
       allEpisodes := allEpisodes st;
       filteredEpisodes := filteredEpisodes st;
       selectedKeywords := selectedKeywords st;
       currentSort := currentSort st;
       searchQuery := JSString.toLowerCase (JSString.trim value);
       currentEpisode := currentEpisode st |}.

Definition handleSortChange (value : string) (st : AppState) : AppState :=
  sortEpisodes
    {| arrays := arrays st;
       indexData := indexData st;
       allEpisodes := allEpisodes st;
       filteredEpisodes := filteredEpisodes st;
       selectedKeywords := selectedKeywords st;
       currentSort := value;
       searchQuery := searchQuery st;
       currentEpisode := currentEpisode st |}.
End Pipeline.

(** [updateSearchStats]: the text of the stats line. *)
Definition updateSearchStats (st : AppState) : string :=
  let total := length (allList st) in
  let showing := length (displayed st) in
  if (showing =? total)%nat
  then "Showing all " +:+ pretty total +:+ " episodes"
  else "Showing " +:+ pretty showing +:+ " of " +:+ pretty total +:+ " episodes".

Definition closeDetailView (st : AppState) : AppState :=
  {| arrays := arrays st;
     indexData := indexData st;
     allEpisodes := allEpisodes st;
     filteredEpisodes := filteredEpisodes st;
     selectedKeywords := selectedKeywords st;
     currentSort := currentSort st;
     searchQuery := searchQuery st;
     currentEpisode := None |}.

(** *** The detail loader *)

Record ParsedTranscript := { content : string }.

Definition parseTranscript (fullText : string) : ParsedTranscript :=
  let content :=
    match Frontmatter.matchGroup fullText with
    | Some group1 => group1
    | None => fullText
    end in
  {| content := JSString.trim content |}.

(** Outcome of fetching a transcript file. *)
Inductive TextResponse :=
| TextRejected
| TextStatus (ok : bool) (text : string).

(** [loadEpisodeDetail]: the state afterwards and the alert, if any. *)
Definition loadEpisodeDetail (slug0 : string) (fetched : TextResponse)
    (st : AppState) : AppState * option string :=
  let failed := (st, Some "Failed to load episode transcript") in
  match List.find (fun ep => String.eqb (slug ep) slug0) (allList st) with
  | None => failed
  | Some episode =>
      match fetched with
      | TextRejected => failed
      | TextStatus false _ => failed
      | TextStatus true transcriptText =>
          let parsed := parseTranscript transcriptText in
          ({| arrays := arrays st;
              indexData := indexData st;
              allEpisodes := allEpisodes st;
              filteredEpisodes := filteredEpisodes st;
              selectedKeywords := selectedKeywords st;
              currentSort := currentSort st;
              searchQuery := searchQuery st;
              currentEpisode :=
                Some {| shown := episode; fullTranscript := content parsed |} |},
           None)
      end
  end.

End App.


(** ** Values of a parsed JSON body *)

Module JSValue.

Local Set Warnings "-register-all".

Inductive jsval :=
| VUndefined
| VNull
| VBool (b : bool)
| VNum (n : Z)
| VStr (s : string)
| VArr (items : list jsval)
| VObj (fields : list (string * jsval)).

(** What a failed step throws. *)
Inductive Exn :=
| TypeError                     (* a property read on undefined or null *)
| SyntaxError                   (* response.json() on a body that is not JSON *)
| NetworkError (msg : string)   (* fetch rejected *)
| Error (message : jsval).      (* new Error(v) *)

Inductive Result (A : Type) :=
| Ok (a : A)
| Throw (e : Exn).
Arguments Ok {A} a.
Arguments Throw {A} e.

Definition bind {A B : Type} (r : Result A) (k : A -> Result B) : Result B :=
  match r with
  | Ok a => k a
  | Throw e => Throw e
  end.

Notation "x <- r ;; k" := (bind r (fun x => k))
  (at level 100, r at next level, right associativity).

Definition truthy (v : jsval) : bool :=
  match v with
  | VUndefined | VNull => false
  | VBool b => b
  | VNum n => negb (n =? 0)%Z
  | VStr s => JSString.truthy s
  | VArr _ | VObj _ => true
  end.

(** [a || b] *)
Definition orElse (a b : jsval) : jsval := if truthy a then a else b.

Fixpoint lookupField (fields : list (string * jsval)) (key : string) : jsval :=
  match fields with
  | [] => VUndefined
  | (k, v) :: fields' => if String.eqb k key then v else lookupField fields' key
  end.

(** [v.key] for the keys the source reads ([content], [text], [choices],
    [message], [error]); only objects own such a property. *)
Definition get (v : jsval) (key : string) : Result jsval :=
  match v with
  | VUndefined | VNull => Throw TypeError
  | VObj fields => Ok (lookupField fields key)
  | _ => Ok VUndefined
  end.

(** [v?.key] *)
Definition getOptional (v : jsval) (key : string) : Result jsval :=
  match v with
  | VUndefined | VNull => Ok VUndefined
  | _ => get v key
  end.

(** [v[i]] *)
Definition at_ (v : jsval) (i : nat) : Result jsval :=
  match v with
  | VUndefined | VNull => Throw TypeError
  | VArr items => Ok (nth i items VUndefined)
  | VStr s =>
      Ok (match String.get i s with
          | Some c => VStr (String c EmptyString)
          | None => VUndefined
          end)
  | VObj fields => Ok (lookupField fields (pretty i))
  | _ => Ok VUndefined
  end.

End JSValue.

(** ** frontend/chat.js *)

Module Chat.

Import JSValue.

Local Set Warnings "-abstract-large-number".

Record Turn := {
  role : string;
  content : jsval
}.

Record ChatState := {
  apiKey : string;
  provider : string;
  conversationHistory : list Turn
}.

Record EpisodeContext := {
  guest : string;
  title : string;
  keywords : list string;
  transcript : string
}.

Record EpisodeSummary := {
  summary_guest : string;
  summary_title : string;
  summary_keywords : list string
}.

Record ChatContext := {
  totalEpisodes : nat;
  filteredEpisodes : nat;
  selectedKeywords : list string;
  currentEpisode : option EpisodeContext;
  availableEpisodes : list EpisodeSummary
}.

(** [getContextForChat] *)
Definition getContextForChat (st : AppState) : ChatContext :=
  {| totalEpisodes := length (App.allList st);
     filteredEpisodes := length (App.displayed st);
     selectedKeywords := JSSet.toArray (Model.selectedKeywords st);
     currentEpisode :=
       match Model.currentEpisode st with
       | Some cur =>
           Some {| guest := Model.guest (shown cur);
                   title := Model.title (shown cur);
                   keywords := Model.keywords (shown cur);
                   transcript := JSString.take 8000 (fullTranscript cur) |}
       | None => None
       end;
     availableEpisodes :=
       map (fun ep => {| summary_guest := Model.guest ep;
                         summary_title := Model.title ep;
                         summary_keywords := Model.keywords ep |})
           (JSArray.sliceTo 10 (App.displayed st)) |}.

Definition nl : string := JSString.newline.
Definition dquote : string := String (ascii_of_nat 34) EmptyString.

(** [buildSystemPrompt] *)
Definition buildSystemPrompt (context : ChatContext) : string :=
  let prompt :=
    "You are a helpful assistant for searching and understanding Lenny's Podcast transcripts."
    +:+ nl +:+ nl +:+
    "The podcast features interviews with world-class product leaders and growth experts."
    +:+ nl +:+ nl +:+
    "Current context:" +:+ nl +:+
    "- Total episodes in archive: " +:+ pretty (totalEpisodes context) +:+ nl +:+
    "- Episodes matching current filters: " +:+ pretty (filteredEpisodes context)
    +:+ nl in
  let prompt :=
    if (0 <? length (selectedKeywords context))%nat
    then prompt +:+ "- Active keyword filters: " +:+
         JSString.join ", " (selectedKeywords context) +:+ nl
    else prompt in
  let prompt :=
    match currentEpisode context with
    | Some cur =>
        prompt +:+ nl +:+ "User is currently viewing this episode:" +:+ nl +:+
        "- Guest: " +:+ guest cur +:+ nl +:+
        "- Title: " +:+ title cur +:+ nl +:+
        "- Topics: " +:+ JSString.join ", " (keywords cur) +:+ nl +:+ nl +:+
        "Transcript excerpt:" +:+ nl +:+ transcript cur +:+ nl +:+ nl
    | None =>
        if (0 <? length (availableEpisodes context))%nat
        then
          fold_left
            (fun prompt ep =>
               prompt +:+ "- " +:+ summary_guest ep +:+ ": " +:+ dquote +:+
               summary_title ep +:+ dquote +:+ " (topics: " +:+
               JSString.join ", " (JSArray.sliceTo 3 (summary_keywords ep)) +:+
               ")" +:+ nl)
            (availableEpisodes context)
            (prompt +:+ nl +:+ "Some available episodes:" +:+ nl)
        else prompt
    end in
  prompt +:+ nl +:+
  "Help the user find relevant information, answer questions about the episodes, or provide insights based on the transcripts. Be concise and helpful.".

(** An outbound request: where it goes, its headers and its JSON body. *)
Record RequestBody := {
  model : string;
  max_tokens : Z;
  system : option string;
  messages : list Turn
}.

Record Request := {
  url : string;
  headers : list (string * string);
  body : RequestBody
}.

(** Outcome of one [fetch] of a provider: the promise rejects, or a response
    arrives with its [ok] flag and its body, [None] when the body is not
    JSON. *)
Inductive JsonResponse :=
| Rejected (msg : string)
| Responded (ok : bool) (json : option jsval).

Definition responseJson (json : option jsval) : Result jsval :=
  match json with
  | Some v => Ok v
  | None => Throw SyntaxError
  end.

Definition setHistory (history : list Turn) (cs : ChatState) : ChatState :=
  {| apiKey := apiKey cs;
     provider := provider cs;
     conversationHistory := history |}.

(** [conversationHistory.push(user, assistant)], then the cap. *)
Definition recordExchange (message : string) (reply : jsval) (cs : ChatState)
  : ChatState :=
  let pushed :=
    conversationHistory cs ++
    [ {| role := "user"; content := VStr message |};
      {| role := "assistant"; content := reply |} ] in
  if (10 <? length pushed)%nat
  then setHistory (JSArray.sliceLast 10 pushed) cs
  else setHistory pushed cs.

(** What each provider function does once [fetch] has settled: the chat
    state afterwards and the value returned or thrown. *)
Definition settleClaude (message : string) (response : JsonResponse)
    (cs : ChatState) : ChatState * Result jsval :=
  match response with
  | Rejected msg => (cs, Throw (NetworkError msg))
  | Responded false json =>
      (cs,
       error <- responseJson json ;;
       inner <- get error "error" ;;
       msg <- getOptional inner "message" ;;
       Throw (Error (orElse msg (VStr "Failed to get response from Claude"))))
  | Responded true json =>
      match (data <- responseJson json ;;
             blocks <- get data "content" ;;
             first <- at_ blocks 0 ;;
             get first "text") with
      | Ok text => (recordExchange message text cs, Ok text)
      | Throw e => (cs, Throw e)
      end
  end.

Definition settleOpenAI (message : string) (response : JsonResponse)
    (cs : ChatState) : ChatState * Result jsval :=
  match response with
  | Rejected msg => (cs, Throw (NetworkError msg))
  | Responded false json =>
      (cs,
       error <- responseJson json ;;
       inner <- get error "error" ;;
       msg <- getOptional inner "message" ;;
       Throw (Error (orElse msg (VStr "Failed to get response from OpenAI"))))
  | Responded true json =>
      match (data <- responseJson json ;;
             choices <- get data "choices" ;;
             first <- at_ choices 0 ;;
             msg <- get first "message" ;;
             get msg "content") with
      | Ok text => (recordExchange message text cs, Ok text)
      | Throw e => (cs, Throw e)
      end
  end.

Definition userTurn (message : string) : Turn :=
  {| role := "user"; content := VStr message |}.

Definition claudeRequest (message : string) (context : ChatContext)
    (cs : ChatState) : Request :=
  {| url := "https://api.anthropic.com/v1/messages";
     headers := [ ("Content-Type", "application/json");
                  ("x-api-key", apiKey cs);
                  ("anthropic-version", "2023-06-01") ];
     body := {| model := "claude-3-5-sonnet-20241022";
                max_tokens := 1024;
                system := Some (buildSystemPrompt context);
                messages := conversationHistory cs ++ [userTurn message] |} |}.

Definition openAIRequest (message : string) (context : ChatContext)
    (cs : ChatState) : Request :=
  {| url := "https://api.openai.com/v1/chat/completions";
     headers := [ ("Content-Type", "application/json");
                  ("Authorization", "Bearer " +:+ apiKey cs) ];
     body := {| model := "gpt-4";
                max_tokens := 1024;
                system := None;
                messages :=
                  {| role := "system";
                     content := VStr (buildSystemPrompt context) |}
                  :: conversationHistory cs ++ [userTurn message] |} |}.

(** The network: it answers each request. *)
Definition Network := Request -> JsonResponse.

(** [queryClaude], [queryOpenAI] and [queryAI]: the request sent, the chat
    state afterwards and the result. *)
Definition queryClaude (net : Network) (message : string)
    (context : ChatContext) (cs : ChatState)
  : Request * (ChatState * Result jsval) :=
  let request := claudeRequest message context cs in
  (request, settleClaude message (net request) cs).

Definition queryOpenAI (net : Network) (message : string)
    (context : ChatContext) (cs : ChatState)
  : Request * (ChatState * Result jsval) :=
  let request := openAIRequest message context cs in
  (request, settleOpenAI message (net request) cs).

Definition queryAI (net : Network) (message : string)
    (context : ChatContext) (cs : ChatState)
  : Request * (ChatState * Result jsval) :=
  if String.eqb (provider cs) "claude"
  then queryClaude net message context cs
  else queryOpenAI net message context cs.

(** How a provider function can end: it returns the reply and has recorded
    the exchange, or it throws and has left the chat state alone. *)
Inductive settled (message : string) (cs : ChatState)
  : ChatState * Result jsval -> Prop :=
| settled_ok (text : jsval) :
    settled message cs (recordExchange message text cs, Ok text)
| settled_throw (e : Exn) :
    settled message cs (cs, Throw e).

(** The parts of what a query gives back. *)
Definition requestOf (q : Request * (ChatState * Result jsval)) : Request :=
  fst q.
Definition chatAfter (q : Request * (ChatState * Result jsval)) : ChatState :=
  fst (snd q).
Definition resultOf (q : Request * (ChatState * Result jsval)) : Result jsval :=
  snd (snd q).

(** Text of a chat bubble: a string, the reply value as the page shows it,
    or the prefix [Error: ] before the message of what was thrown. *)
Inductive BubbleText :=
| Plain (s : string)
| Reply (v : jsval)
| ErrorOf (e : Exn).

(** The page around the chat, with the log of requests that left it. *)
Record World := {
  app : AppState;
  chat : ChatState;
  chatInput : string;
  chatMessages : list (string * BubbleText);
  sendDisabled : bool;
  sendLabel : string;
  sent : list Request
}.

Definition addChatMessage (type : string) (text : BubbleText) (w : World)
  : World :=
  {| app := app w; chat := chat w; chatInput := chatInput w;
     chatMessages := chatMessages w ++ [(type, text)];
     sendDisabled := sendDisabled w; sendLabel := sendLabel w;
     sent := sent w |}.

(** [sendChatMessage], when nothing happens on the page between the
    request and its response.  The function waits for the response, and
    the page goes on meanwhile: [ChatAsync] below has the part before the
    wait and the part after it, and the runs in which sends overlap. *)
Definition sendChatMessage (net : Network) (w : World) : World :=
  let message := JSString.trim (chatInput w) in
  if negb (JSString.truthy message) then w
  else if negb (JSString.truthy (apiKey (chat w)))
  then addChatMessage "error" (Plain "Please enter your API key first.") w
  else
    let w1 := addChatMessage "user" (Plain message) w in
    let context := getContextForChat (app w1) in
    let '(request, (cs, result)) := queryAI net message context (chat w1) in
    let bubble :=
      match result with
      | Ok response => ("assistant", Reply response)
      | Throw e => ("error", ErrorOf e)
      end in
    {| app := app w1; chat := cs; chatInput := "";
       chatMessages := chatMessages w1 ++ [bubble];
       sendDisabled := false; sendLabel := "Send";
       sent := sent w1 ++ [request] |}.

(** [clearChatHistory] *)
Definition clearChatHistory (w : World) : World :=
  {| app := app w; chat := setHistory [] (chat w); chatInput := chatInput w;
     chatMessages :=
       [("system", Plain "Chat history cleared. How can I help you?")];
     sendDisabled := sendDisabled w; sendLabel := sendLabel w;
     sent := sent w |}.

(** What the user and the page can do to the chat. *)
Inductive ChatEvent :=
| TypeInput (text : string)          (* edit the chat box *)
| TypeApiKey (key : string)          (* input event of the key field *)
| ChooseProvider (name : string)     (* change event of the provider list *)
| Send (net : Network)               (* click or Enter, and the answer *)
| Clear.                             (* ChatUtils.clearChatHistory *)

Definition chatStep (w : World) (ev : ChatEvent) : World :=
  match ev with
  | TypeInput text =>
      {| app := app w; chat := chat w; chatInput := text;
         chatMessages := chatMessages w; sendDisabled := sendDisabled w;
         sendLabel := sendLabel w; sent := sent w |}
  | TypeApiKey key =>
      {| app := app w;
         chat := {| apiKey := key; provider := provider (chat w);
                    conversationHistory := conversationHistory (chat w) |};
         chatInput := chatInput w;
         chatMessages := chatMessages w; sendDisabled := sendDisabled w;
         sendLabel := sendLabel w; sent := sent w |}
  | ChooseProvider name =>
      {| app := app w;
         chat := {| apiKey := apiKey (chat w); provider := name;
                    conversationHistory := conversationHistory (chat w) |};
         chatInput := chatInput w;
         chatMessages := chatMessages w; sendDisabled := sendDisabled w;
         sendLabel := sendLabel w; sent := sent w |}
  | Send net => sendChatMessage net w
  | Clear => clearChatHistory w
  end.

(** The page as it loads: [storedKey] and [storedProvider] are what
    [localStorage] holds, the empty string standing for no entry. *)
Definition initialWorld (st : AppState) (storedKey storedProvider : string)
  : World :=
  {| app := st;
     chat := {| apiKey := storedKey;
                provider := if JSString.truthy storedProvider
                            then storedProvider else "claude";
                conversationHistory := [] |};
     chatInput := "";
     chatMessages := [];
     sendDisabled := false;
     sendLabel := "Send";
     sent := [] |}.

End Chat.

(** ** A session of the page *)

Module Session.

(** What the user can do once the page has started. *)
Inductive AppEvent :=
| KeywordToggled (keyword : string) (checked : bool)
| SearchTyped (value : string)
| SortChosen (value : string)
| KeywordFiltersRendered
| DetailOpened (slug0 : string) (fetched : App.TextResponse)
| DetailClosed.

Section Run.
Context `{Collator}.

Definition appStep (st : AppState) (ev : AppEvent) : AppState :=
  match ev with
  | KeywordToggled keyword checked => App.handleKeywordFilter keyword checked st
  | SearchTyped value => App.handleSearch value st
  | SortChosen value => App.handleSortChange value st
  | KeywordFiltersRendered => fst (App.renderKeywordFilters st)
  | DetailOpened slug0 fetched => fst (App.loadEpisodeDetail slug0 fetched st)
  | DetailClosed => App.closeDetailView st
  end.

Definition run (events : list AppEvent) (st : AppState) : AppState :=
  fold_left appStep events st.

(** The [DOMContentLoaded] handler: load the index, render the keyword
    filters; then the events. *)
Definition session (fetched : option IndexPayload) (events : list AppEvent)
  : AppState :=
  run (KeywordFiltersRendered :: events) (App.loadIndex fetched App.initial).
End Run.

(** The shape of the store in every state of a session: both arrays exist,
    they are two arrays, and the index names the array of [allEpisodes]. *)
Definition wellFormed (st : AppState) : Prop :=
  allEpisodes st ∈ dom (arrays st) /\
  filteredEpisodes st ∈ dom (arrays st) /\
  allEpisodes st <> filteredEpisodes st /\
  (forall idx, indexData st = Some idx -> episodes idx = allEpisodes st).

(** The episodes array of the index document, as the store holds it. *)
Definition indexEpisodes (st : AppState) : option (list EpisodeRecord) :=
  match indexData st with
  | Some idx => arrays st !! episodes idx
  | None => None
  end.

Definition indexKeywords (st : AppState) : option (list string) :=
  match indexData st with
  | Some idx => Some (all_keywords idx)
  | None => None
  end.

(** What a step of the session leaves alone: the names of the index and
    of [allEpisodes], and the array they name; the keywords of the index up
    to their order. *)
Definition framed (st st' : AppState) : Prop :=
  allEpisodes st' = allEpisodes st /\
  arrays st' !! allEpisodes st = arrays st !! allEpisodes st /\
  indexEpisodes st' = indexEpisodes st /\
  match indexKeywords st, indexKeywords st' with
  | Some before, Some after => Permutation before after
  | None, None => True
  | _, _ => False
  end.

End Session.

(** ** The frontmatter pattern, read as a description of the text *)

Fixpoint whiteSpaceOnly (s : string) : bool :=
  match s with
  | String c s' => JSString.isWhiteSpace c && whiteSpaceOnly s'
  | EmptyString => true
  end.

(** The text opens with a metadata block: a line of three dashes, some
    text, and a second line of three dashes, each possibly followed by white
    space before its line feed. *)
Definition hasFrontmatter (fullText : string) : Prop :=
  exists ws1 meta ws2 body,
    whiteSpaceOnly ws1 = true /\ whiteSpaceOnly ws2 = true /\
    fullText =
      "---" +:+ ws1 +:+ JSString.newline +:+ meta +:+
      (JSString.newline +:+ "---") +:+ ws2 +:+ JSString.newline +:+ body.

(** ** Sample data *)

Module Samples.

Definition episode (slug0 guest0 : string) (keywords0 : list string)
    (views seconds : Z) : EpisodeRecord :=
  {| slug := slug0; guest := guest0; title := "A talk with " +:+ guest0;
     description := ""; keywords := keywords0; duration := "1:00:00";
     duration_seconds := seconds; view_count := views;
     youtube_url := ""; transcript_path := "episodes/" +:+ slug0 |}.

Definition ann : EpisodeRecord := episode "ann" "Ann" ["growth"] 10 3600.
Definition brian : EpisodeRecord :=
  episode "brian" "Brian Chesky" ["pricing"; "growth"] 30 5400.
Definition cy : EpisodeRecord := episode "cy" "Cy" ["hiring"] 20 7200.

Definition payload : IndexPayload :=
  {| payload_total := 3;
     payload_keywords := ["hiring"; "growth"; "pricing"];
     payload_episodes := [ann; brian; cy] |}.

(** A collator that orders strings by their code units. *)
Definition byCodeUnits : Collator :=
  fun a b =>
    match String.compare a b with
    | Lt => (-1)%Z
    | Eq => 0%Z
    | Gt => 1%Z
    end.

Definition loaded : AppState := App.loadIndex (Some payload) App.initial.

Definition growthSelected : AppState :=
  @App.handleKeywordFilter byCodeUnits "growth" true loaded.

Definition byGuest : AppState :=
  @App.handleSortChange byCodeUnits "title" growthSelected.

(** A transcript file without a metadata block. *)
Definition plainTranscript : string := "Hello." +:+ JSString.newline.

(** A provider that answers every request with the given body. *)
Definition answers (ok : bool) (json : option JSValue.jsval) : Chat.Network :=
  fun _ => Chat.Responded ok json.

Definition claudeReply (text : string) : JSValue.jsval :=
  JSValue.VObj
    [("content",
      JSValue.VArr [JSValue.VObj [("type", JSValue.VStr "text");
                                  ("text", JSValue.VStr text)]])].

Definition overloaded : JSValue.jsval :=
  JSValue.VObj
    [("error", JSValue.VObj [("message", JSValue.VStr "Overloaded")])].

Definition world (key : string) (input : string) : Chat.World :=
  {| Chat.app := loaded;
     Chat.chat := {| Chat.apiKey := key; Chat.provider := "claude";
                     Chat.conversationHistory := [] |};
     Chat.chatInput := input;
     Chat.chatMessages := [];
     Chat.sendDisabled := false;
     Chat.sendLabel := "Send";
     Chat.sent := [] |}.

End Samples.

(** ** More of frontend/app.js: utilities *)

Module Html.

(** [escapeHtml] makes the text the content of a new [div] and reads the
    markup of the [div] back.  The markup of a text node is the text with
    the ampersand, the no-break space and the two angle brackets replaced by
    their character references. *)
Definition escapeChar (c : ascii) : string :=
  if Ascii.eqb c "&" then "&amp;"
  else if Ascii.eqb c "<" then "&lt;"
  else if Ascii.eqb c ">" then "&gt;"
  else if (nat_of_ascii c =? 160)%nat then "&nbsp;"
  else String c EmptyString.

Fixpoint escapeHtml (text : string) : string :=
  match text with
  | String c text' => escapeChar c +:+ escapeHtml text'
  | EmptyString => EmptyString
  end.

(** The characters of a string. *)
Fixpoint chars (s : string) : list ascii :=
  match s with
  | String c s' => c :: chars s'
  | EmptyString => []
  end.

End Html.

(** [debounce(func, wait)]: the returned function cancels the pending timer
    and starts a new one; when the browser runs the timer, [func] is called
    with the arguments of the call that started it.  The clock is the
    browser's: a timer that is pending runs when the browser says so, after
    [wait] milliseconds, and a cancelled one never runs. *)
Module Debounce.

Section Debounce.
Context {Args : Type}.

Record Timer := {
  pending : option Args;     (* the timer behind [timeout], if it is live *)
  invoked : list Args        (* the calls of [func] so far *)
}.

Definition idle : Timer := {| pending := None; invoked := [] |}.

(** [executedFunction(...args)] *)
Definition executedFunction (args : Args) (t : Timer) : Timer :=
  {| pending := Some args; invoked := invoked t |}.

(** The browser runs the pending timer: [later()]. *)
Definition later (t : Timer) : Timer :=
  match pending t with
  | Some args => {| pending := None; invoked := invoked t ++ [args] |}
  | None => t
  end.

Inductive Event :=
| Called (args : Args)
| TimerRuns.

Definition step (t : Timer) (ev : Event) : Timer :=
  match ev with
  | Called args => executedFunction args t
  | TimerRuns => later t
  end.

Definition run (events : list Event) (t : Timer) : Timer :=
  fold_left step events t.

(** The arguments of the pending timer, if any. *)
Definition waiting (t : Timer) : list Args :=
  match pending t with
  | Some args => [args]
  | None => []
  end.

(** The arguments the debounced function was called with. *)
Definition calledWith (events : list Event) : list Args :=
  flat_map (fun ev => match ev with Called args => [args] | TimerRuns => [] end)
           events.
End Debounce.

Arguments Timer : clear implicits.
Arguments Event : clear implicits.

(** The search box: [debounce(handleSearch, 300)] on its [input] events. *)
Definition searchBox `{Collator} (events : list (Event string)) (st : AppState)
  : AppState :=
  fold_left (fun st value => App.handleSearch value st)
            (invoked (run events idle)) st.

End Debounce.

(** ** More of frontend/chat.js: the stored configuration *)

Module ChatStorage.

(** The page's [localStorage] and the chat state read from it. *)
Record Page := {
  chatState : Chat.ChatState;
  localStorage : gmap string string
}.

Definition keyItem : string := "ai_api_key".
Definition providerItem : string := "ai_provider".

(** [localStorage.getItem(item) || fallback] *)
Definition getItemOr (storage : gmap string string) (item fallback : string)
  : string :=
  match storage !! item with
  | Some value => if JSString.truthy value then value else fallback
  | None => fallback
  end.

(** The [ChatState] literal, evaluated when the script loads. *)
Definition open (storage : gmap string string) : Page :=
  {| chatState :=
       {| Chat.apiKey := getItemOr storage keyItem "";
          Chat.provider := getItemOr storage providerItem "claude";
          Chat.conversationHistory := [] |};
     localStorage := storage |}.

(** [loadChatConfig] *)
Definition loadChatConfig (p : Page) : Page :=
  {| chatState :=
       {| Chat.apiKey := getItemOr (localStorage p) keyItem "";
          Chat.provider := getItemOr (localStorage p) providerItem "claude";
          Chat.conversationHistory := Chat.conversationHistory (chatState p) |};
     localStorage := localStorage p |}.

(** The [input] listener of the key field and the [change] listener of the
    provider list, as [setupChatListeners] installs them. *)
Definition onApiKeyInput (value : string) (p : Page) : Page :=
  {| chatState :=
       {| Chat.apiKey := value;
          Chat.provider := Chat.provider (chatState p);
          Chat.conversationHistory := Chat.conversationHistory (chatState p) |};
     localStorage := <[keyItem := value]> (localStorage p) |}.

Definition onProviderChange (value : string) (p : Page) : Page :=
  {| chatState :=
       {| Chat.apiKey := Chat.apiKey (chatState p);
          Chat.provider := value;
          Chat.conversationHistory := Chat.conversationHistory (chatState p) |};
     localStorage := <[providerItem := value]> (localStorage p) |}.

Inductive ConfigEvent :=
| KeyTyped (value : string)
| ProviderChosen (value : string).

Definition configStep (p : Page) (ev : ConfigEvent) : Page :=
  match ev with
  | KeyTyped value => onApiKeyInput value p
  | ProviderChosen value => onProviderChange value p
  end.

(** The provider list offers no empty value. *)
Definition offered (ev : ConfigEvent) : Prop :=
  match ev with
  | KeyTyped _ => True
  | ProviderChosen value => value <> ""%string
  end.

(** The chat state holds what the storage would give back. *)
Definition inSync (p : Page) : Prop :=
  Chat.apiKey (chatState p) = getItemOr (localStorage p) keyItem "" /\
  Chat.provider (chatState p) = getItemOr (localStorage p) providerItem "claude".

End ChatStorage.

(** ** Notions the properties are stated with *)

Module Notions.

(** No white space at all, at the start, at the end. *)
Fixpoint noWhiteSpace (s : string) : bool :=
  match s with
  | String c s' => negb (JSString.isWhiteSpace c) && noWhiteSpace s'
  | EmptyString => true
  end.

Definition startsWithWhiteSpace (s : string) : bool :=
  match s with
  | String c _ => JSString.isWhiteSpace c
  | EmptyString => false
  end.

Fixpoint endsWithWhiteSpace (s : string) : bool :=
  match s with
  | String c EmptyString => JSString.isWhiteSpace c
  | String _ s' => endsWithWhiteSpace s'
  | EmptyString => false
  end.

(** A history made of exchanges: a user turn, then the assistant's. *)
Inductive exchanges : list Chat.Turn -> Prop :=
| exchanges_nil : exchanges []
| exchanges_cons (message : string) (reply : JSValue.jsval) (rest : list Chat.Turn) :
    exchanges rest ->
    exchanges (Chat.userTurn message
               :: {| Chat.role := "assistant"; Chat.content := reply |}
               :: rest).

(** The two turns of an exchange. *)
Definition exchange (x : string * JSValue.jsval) : list Chat.Turn :=
  [ Chat.userTurn (fst x);
    {| Chat.role := "assistant"; Chat.content := snd x |} ].

(** The history as the cap keeps it: whole exchanges, ten turns at most. *)
Definition kept (h : list Chat.Turn) : Prop := exchanges h /\ length h <= 10.


(** The properties every object inherits from [Object.prototype], and the
    keys that name none of them: on these an object literal is a map. *)
Definition objectPrototypeKeys : list string :=
  [ "constructor"; "hasOwnProperty"; "isPrototypeOf"; "propertyIsEnumerable";
    "toLocaleString"; "toString"; "valueOf"; "__proto__";
    "__defineGetter__"; "__defineSetter__";
    "__lookupGetter__"; "__lookupSetter__" ].

Definition plainKey (k : string) : Prop :=
  existsb (String.eqb k) objectPrototypeKeys = false.


(** How often a keyword occurs in the keyword lists of the episodes. *)
Definition occurrences (keyword : string) (eps : list EpisodeRecord) : nat :=
  count_occ String.string_dec (concat (map keywords eps)) keyword.

End Notions.

(** ** The two halves of a send *)

(** [sendChatMessage] awaits the provider.  What stands before the [await]
    runs when the user sends; what stands after it runs when the response
    has arrived, on the page as it is then.  The [keydown] listener does
    not look at the send button, so other events, a second send among
    them, can come in between. *)
Module ChatAsync.

Import JSValue Chat.

(** [data.content[0].text] and [data.choices[0].message.content] *)
Definition claudeText (data : jsval) : Result jsval :=
  blocks <- get data "content" ;;
  first <- at_ blocks 0 ;;
  get first "text".

Definition openAIText (data : jsval) : Result jsval :=
  choices <- get data "choices" ;;
  first <- at_ choices 0 ;;
  msg <- get first "message" ;;
  get msg "content".

(** The reply text the provider function in charge reads. *)
Definition replyText (providerName : string) (data : jsval) : Result jsval :=
  if String.eqb providerName "claude" then claudeText data else openAIText data.

(** The part of [queryClaude] or [queryOpenAI] after its [await]s, by the
    provider chosen when the request left. *)
Definition settle (providerName message : string) (response : JsonResponse)
    (cs : ChatState) : ChatState * Result jsval :=
  if String.eqb providerName "claude"
  then settleClaude message response cs
  else settleOpenAI message response cs.

(** A request under way: the message, the provider function in charge and
    the request that left. *)
Record Pending := {
  pendingMessage : string;
  pendingProvider : string;
  pendingRequest : Request
}.

(** [sendChatMessage] up to its [await]: the page then, and the request
    under way if one left. *)
Definition sendBefore (w : World) : World * option Pending :=
  let message := JSString.trim (chatInput w) in
  if negb (JSString.truthy message) then (w, None)
  else if negb (JSString.truthy (apiKey (chat w)))
  then (addChatMessage "error" (Plain "Please enter your API key first.") w,
        None)
  else
    let w1 := addChatMessage "user" (Plain message) w in
    let context := getContextForChat (app w1) in
    let request :=
      if String.eqb (provider (chat w1)) "claude"
      then claudeRequest message context (chat w1)
      else openAIRequest message context (chat w1) in
    ({| app := app w1; chat := chat w1; chatInput := "";
        chatMessages := chatMessages w1;
        sendDisabled := true; sendLabel := "Sending...";
        sent := sent w1 ++ [request] |},
     Some {| pendingMessage := message;
             pendingProvider := provider (chat w1);
             pendingRequest := request |}).

(** [sendChatMessage] from the [await] on, once the response is there. *)
Definition sendAfter (p : Pending) (response : JsonResponse) (w : World)
  : World :=
  let '(cs, result) :=
    settle (pendingProvider p) (pendingMessage p) response (chat w) in
  let bubble :=
    match result with
    | Ok reply => ("assistant", Reply reply)
    | Throw e => ("error", ErrorOf e)
    end in
  {| app := app w; chat := cs; chatInput := chatInput w;
     chatMessages := chatMessages w ++ [bubble];
     sendDisabled := false; sendLabel := "Send";
     sent := sent w |}.

(** What happens on the page while requests are under way: an event of
    [chatStep], a send that reaches its [await], or the response to the
    request under way at a position. *)
Inductive AsyncEvent :=
| Page (ev : ChatEvent)
| Begin
| Finish (i : nat) (response : JsonResponse).

(** The page and the requests under way, oldest first. *)
Definition AsyncWorld : Type := World * list Pending.

Definition asyncStep (s : AsyncWorld) (ev : AsyncEvent) : AsyncWorld :=
  let '(w, underWay) := s in
  match ev with
  | Page ev => (chatStep w ev, underWay)
  | Begin =>
      let '(w', p) := sendBefore w in
      (w', underWay ++ match p with Some p => [p] | None => [] end)
  | Finish i response =>
      match nth_error underWay i with
      | Some p =>
          (sendAfter p response w, firstn i underWay ++ skipn (S i) underWay)
      | None => s
      end
  end.

End ChatAsync.

(** ** More sample data *)

Module MoreSamples.

(** A transcript file with a metadata block. *)
Definition annTranscript : string :=
  "---" +:+ JSString.newline +:+ "guest: Ann" +:+ JSString.newline +:+
  "---" +:+ JSString.newline +:+ "Hello." +:+ JSString.newline.

(** A chat that has had five exchanges. *)
Definition fiveExchanges : Chat.ChatState :=
  fold_left (fun cs x => Chat.recordExchange (fst x) (snd x) cs)
            (repeat ("Why?", JSValue.VStr "Because.") 5)
            (Chat.chat (Samples.world "sk-test" "")).

End MoreSamples.

(** * Properties *)

(** ** Strings *)

Module JSStringFacts.
Import JSString.

Lemma append_nil_l (s : string) : "" +:+ s = s.
Proof. reflexivity. Qed.

Lemma append_cons (c : ascii) (s t : string) :
  String c s +:+ t = String c (s +:+ t).
Proof. reflexivity. Qed.

Ltac str_simpl := rewrite ?append_cons, ?append_nil_l in *.

Lemma append_nil_r (s : string) : s +:+ "" = s.
Proof. induction s as [|c s IH]; str_simpl; [reflexivity | now rewrite IH]. Qed.

Lemma append_assoc (a b c : string) : (a +:+ b) +:+ c = a +:+ (b +:+ c).
Proof. induction a as [|x a IH]; str_simpl; [reflexivity | now rewrite IH]. Qed.

Lemma startsWith_spec (s p : string) :
  startsWith s p = true <-> exists rest, s = p +:+ rest.
Proof.
  revert s. induction p as [|a p IH]; intros s; simpl.
  - split; [intros _; now exists s | reflexivity].
  - destruct s as [|b s].
    + split; [discriminate | intros [rest Hr]; str_simpl; discriminate].
    + destruct (Ascii.eqb a b) eqn:Hab.
      * apply Ascii.eqb_eq in Hab. subst b. rewrite IH.
        split; intros [rest Hr]; exists rest; str_simpl;
          [now rewrite Hr | now injection Hr].
      * apply Ascii.eqb_neq in Hab.
        split; [discriminate | intros [rest Hr]; str_simpl; injection Hr; congruence].
Qed.

(** [includes] decides the substring relation. *)
Lemma includes_spec (s q : string) :
  includes s q = true <-> exists before after, s = before +:+ q +:+ after.
Proof.
  induction s as [|c s IH].
  - simpl. rewrite orb_false_r, startsWith_spec. split.
    + intros [rest Hr]. now exists ""%string, rest.
    + intros [before [after Hs]]. destruct before; str_simpl;
        [now exists after | discriminate].
  - cbn [includes]. rewrite orb_true_iff, IH, startsWith_spec. split.
    + intros [[rest Hr] | [before [after Hs]]].
      * now exists ""%string, rest.
      * exists (String c before), after. str_simpl. now rewrite Hs.
    + intros [before [after Hs]]. destruct before as [|b before]; str_simpl.
      * left. now exists after.
      * right. injection Hs as _ Hs. now exists before, after.
Qed.

Lemma length_toLowerCase (s : string) :
  String.length (toLowerCase s) = String.length s.
Proof. induction s as [|c s IH]; simpl; [reflexivity | now rewrite IH]. Qed.

Lemma truthy_iff (s : string) : truthy s = true <-> s <> ""%string.
Proof. destruct s; simpl; split; congruence. Qed.


Lemma length_take (n : nat) (s : string) :
  String.length (take n s) = Nat.min n (String.length s).
Proof.
  revert s. induction n as [|n IH]; intros [|c s]; simpl; try reflexivity.
  now rewrite IH.
Qed.

Lemma take_prefix (n : nat) (s : string) : exists rest, s = take n s +:+ rest.
Proof.
  revert s. induction n as [|n IH]; intros [|c s]; simpl.
  - now exists ""%string.
  - now exists (String c s).
  - now exists ""%string.
  - destruct (IH s) as [rest Hr]. exists rest. str_simpl. now rewrite <- Hr.
Qed.

End JSStringFacts.

(** ** Arrays *)

Module JSArrayFacts.
Import JSArray.

Section Sorting.
Context {A : Type} (cmp : A -> A -> Z).

Lemma insertSorted_perm (x : A) (arr : list A) :
  Permutation (x :: arr) (insertSorted cmp x arr).
Proof.
  induction arr as [|y arr IH]; simpl; [reflexivity|].
  destruct (cmp x y <=? 0)%Z; [reflexivity|].
  rewrite perm_swap. now apply perm_skip.
Qed.

Lemma sort_perm (arr : list A) : Permutation arr (sort cmp arr).
Proof.
  induction arr as [|x arr IH]; simpl; [reflexivity|].
  rewrite <- insertSorted_perm. now apply perm_skip.
Qed.

(** The sort is stable: elements none of which the comparator puts after
    another, such as elements with the same key, keep their order. *)
Lemma insertSorted_stable (keep : A -> bool) (x : A) (arr : list A) :
  (forall a b, keep a = true -> keep b = true -> (cmp a b <= 0)%Z) ->
  List.filter keep (insertSorted cmp x arr) = List.filter keep (x :: arr).
Proof.
  intros Htied. induction arr as [|y arr IH]; [reflexivity|].
  cbn [insertSorted]. destruct (cmp x y <=? 0)%Z eqn:Hxy; [reflexivity|].
  apply Z.leb_gt in Hxy. cbn [List.filter] in *. rewrite IH.
  destruct (keep x) eqn:Hx, (keep y) eqn:Hy; try reflexivity.
  specialize (Htied x y Hx Hy). lia.
Qed.

Lemma sort_stable (keep : A -> bool) (arr : list A) :
  (forall a b, keep a = true -> keep b = true -> (cmp a b <= 0)%Z) ->
  List.filter keep (sort cmp arr) = List.filter keep arr.
Proof.
  intros Htied. induction arr as [|x arr IH]; [reflexivity|].
  cbn [sort]. rewrite insertSorted_stable by exact Htied.
  cbn [List.filter]. now rewrite IH.
Qed.

Lemma length_sort (arr : list A) : length (sort cmp arr) = length arr.
Proof. symmetry. apply Permutation_length, sort_perm. Qed.

Lemma In_sort (x : A) (arr : list A) : In x (sort cmp arr) <-> In x arr.
Proof.
  split; apply Permutation_in; [symmetry|]; apply sort_perm.
Qed.

(** Of two elements the comparator puts in no order at least one order
    is allowed. *)
Hypothesis cmp_total : forall a b, (0 < cmp a b)%Z -> (cmp b a <= 0)%Z.

Lemma HdRel_insertSorted (y x : A) (arr : list A) :
  inOrder cmp y x -> HdRel (inOrder cmp) y arr -> HdRel (inOrder cmp) y (insertSorted cmp x arr).
Proof.
  intros Hyx Hhd. destruct arr as [|z arr]; simpl.
  - now constructor.
  - destruct (cmp x z <=? 0)%Z; constructor; [assumption|].
    now inversion Hhd.
Qed.

Lemma insertSorted_sorted (x : A) (arr : list A) :
  Sorted (inOrder cmp) arr -> Sorted (inOrder cmp) (insertSorted cmp x arr).
Proof.
  induction 1 as [|y arr Hs IH Hhd]; simpl.
  - repeat constructor.
  - destruct (cmp x y <=? 0)%Z eqn:Hxy.
    + apply Z.leb_le in Hxy. repeat constructor; assumption.
    + apply Z.leb_gt in Hxy. constructor; [assumption|].
      apply HdRel_insertSorted; [|assumption].
      now apply cmp_total.
Qed.

Lemma sort_sorted (arr : list A) : Sorted (inOrder cmp) (sort cmp arr).
Proof.
  induction arr as [|x arr IH]; simpl; [constructor|].
  now apply insertSorted_sorted.
Qed.
End Sorting.

Lemma length_sliceLast {A : Type} (n : nat) (arr : list A) :
  length (sliceLast n arr) = Nat.min n (length arr).
Proof. unfold sliceLast. rewrite length_skipn. lia. Qed.

Lemma sliceLast_all {A : Type} (n : nat) (arr : list A) :
  length arr <= n -> sliceLast n arr = arr.
Proof.
  intros Hle. unfold sliceLast.
  replace (length arr - n) with 0 by lia. reflexivity.
Qed.

(** What [slice(-n)] leaves out stands before what it keeps. *)
Lemma sliceLast_suffix {A : Type} (n : nat) (arr : list A) :
  arr = firstn (length arr - n) arr ++ sliceLast n arr.
Proof. unfold sliceLast. now rewrite firstn_skipn. Qed.

Lemma length_sliceTo {A : Type} (n : nat) (arr : list A) :
  length (sliceTo n arr) = Nat.min n (length arr).
Proof. apply length_firstn. Qed.

Lemma includes_In (arr : list string) (k : string) :
  includes arr k = true <-> In k arr.
Proof.
  unfold includes. rewrite existsb_exists. split.
  - intros [x [Hin Heq]]. apply String.eqb_eq in Heq. now subst.
  - intros Hin. exists k. split; [assumption | apply String.eqb_refl].
Qed.

End JSArrayFacts.

Module JSSetFacts.
Import JSSet.

Lemma In_delete (k x : string) (s : t) : In x (delete k s) <-> In x s /\ x <> k.
Proof.
  unfold delete. rewrite filter_In, negb_true_iff. split; intros [Hin Hne]; split;
    try assumption.
  - intros ->. now rewrite String.eqb_refl in Hne.
  - apply String.eqb_neq. congruence.
Qed.

Lemma In_add (k x : string) (s : t) : In x (add k s) <-> In x s \/ x = k.
Proof.
  unfold add. destruct (has s k) eqn:Hhas.
  - split; [now left|]. intros [Hin | ->]; [assumption|].
    unfold has in Hhas. apply existsb_exists in Hhas as [y [Hy Heq]].
    apply String.eqb_eq in Heq. now subst.
  - rewrite in_app_iff. simpl. intuition congruence.
Qed.

End JSSetFacts.

(** ** The filter and sort pipeline *)

Module AppFacts.
Import App.

Lemma Sorted_weaken {A : Type} (R R' : A -> A -> Prop) (l : list A) :
  (forall a b, R a b -> R' a b) -> Sorted R l -> Sorted R' l.
Proof.
  intros Himpl. induction 1 as [|x l Hs IH Hhd]; constructor; [assumption|].
  destruct Hhd; constructor. now apply Himpl.
Qed.

Lemma hasAllKeywords_spec (selected : JSSet.t) (e : EpisodeRecord) :
  hasAllKeywords selected e = true <->
  forall k, In k selected -> In k (keywords e).
Proof.
  unfold hasAllKeywords, JSSet.toArray. rewrite forallb_forall.
  split; intros Hall k Hk; apply JSArrayFacts.includes_In; now apply Hall.
Qed.

Lemma In_keywordStep (selected : JSSet.t) (eps : list EpisodeRecord)
    (e : EpisodeRecord) :
  In e (keywordStep selected eps) <->
  In e eps /\ forall k, In k selected -> In k (keywords e).
Proof.
  unfold keywordStep, JSSet.size. destruct selected as [|k0 selected].
  - simpl. split; [intros He; split; [assumption | intros k []] | tauto].
  - change (0 <? length (k0 :: selected))%nat with true. cbv iota.
    now rewrite filter_In, hasAllKeywords_spec.
Qed.

Lemma In_searchStep (query : string) (eps : list EpisodeRecord)
    (e : EpisodeRecord) :
  In e (searchStep query eps) <->
  In e eps /\ (query <> ""%string -> matchesSearch query e = true).
Proof.
  unfold searchStep. destruct query as [|c query]; simpl.
  - split; [intros He; split; [assumption | congruence] | tauto].
  - rewrite filter_In. split; intros [He Hm]; split; try assumption.
    + now intros _.
    + now apply Hm.
Qed.


Section Pipeline.
Context `{Collator}.

Lemma sortedBy_nil (mode : string) : sortedBy mode [] = [].
Proof. unfold sortedBy. now repeat destruct (String.eqb _ _). Qed.

Lemma sortedBy_perm (mode : string) (eps : list EpisodeRecord) :
  Permutation eps (sortedBy mode eps).
Proof.
  unfold sortedBy.
  repeat destruct (String.eqb _ _); try apply JSArrayFacts.sort_perm.
  reflexivity.
Qed.

Lemma In_sortedBy (mode : string) (eps : list EpisodeRecord) (e : EpisodeRecord) :
  In e (sortedBy mode eps) <-> In e eps.
Proof.
  split; apply Permutation_in; [symmetry|]; apply sortedBy_perm.
Qed.

(** Sorting works on the array that is displayed, where it is. *)
Lemma displayed_sortEpisodes (st : AppState) :
  displayed (sortEpisodes st) = sortedBy (currentSort st) (displayed st).
Proof.
  unfold displayed, readArray, sortEpisodes. simpl.
  rewrite lookup_alter_eq.
  destruct (arrays st !! filteredEpisodes st); simpl;
    [reflexivity | now rewrite sortedBy_nil].
Qed.

(** What is displayed after [applyFilters]: the two steps, then the sort. *)
Lemma displayed_applyFilters (st : AppState) :
  displayed (applyFilters st) =
  sortedBy (currentSort st)
    (searchStep (searchQuery st)
       (keywordStep (selectedKeywords st) (allList st))).
Proof.
  unfold applyFilters. rewrite displayed_sortEpisodes.
  unfold displayed, readArray. simpl. now rewrite lookup_insert_eq.
Qed.

Lemma In_applyFilters (st : AppState) (e : EpisodeRecord) :
  In e (displayed (applyFilters st)) <->
  In e (allList st) /\
  (forall k, In k (selectedKeywords st) -> In k (keywords e)) /\
  (searchQuery st <> ""%string -> matchesSearch (searchQuery st) e = true).
Proof.
  rewrite displayed_applyFilters, In_sortedBy, In_searchStep, In_keywordStep.
  tauto.
Qed.
End Pipeline.

End AppFacts.

(** ** Claims on the pipeline *)

Module PipelineClaims.
Import App AppFacts.

(** The scenario of the specification: of three episodes tagged growth,
    pricing and growth, and hiring, selecting growth keeps the first two in
    their order. *)
Example keywordStep_growth :
  keywordStep ["growth"] [Samples.ann; Samples.brian; Samples.cy]
  = [Samples.ann; Samples.brian].
Proof. reflexivity. Qed.

(** The search text keeps the fields apart: a query that would only match
    across the end of the guest and the start of the title finds nothing. *)
Example search_does_not_span_fields :
  matchesSearch "nna" Samples.ann = false /\ matchesSearch "ann" Samples.ann = true.
Proof. split; reflexivity. Qed.

(** C1. The keyword step of [applyFilters] keeps a record exactly when every
    selected keyword is in the record's keyword list; what is displayed are
    the records the keyword step keeps and the search step does not remove;
    with nothing selected the keyword step removes no record. *)
Theorem applyFilters_keyword_conjunction `{Collator} (st : AppState)
    (e : EpisodeRecord) :
  let kept := keywordStep (selectedKeywords st) (allList st) in
  (In e kept <->
     In e (allList st) /\
     forall k, In k (selectedKeywords st) -> In k (keywords e)) /\
  (In e (displayed (applyFilters st)) <->
     In e kept /\
     (searchQuery st <> ""%string -> matchesSearch (searchQuery st) e = true)) /\
  (selectedKeywords st = [] -> kept = allList st).
Proof.
  cbv zeta. split; [apply In_keywordStep | split].
  - rewrite In_applyFilters, In_keywordStep. tauto.
  - intros ->. reflexivity.
Qed.


(** C9. Whatever the search query, a record displayed under a selection is
    still displayed once a keyword has been unchecked. *)
Theorem unselect_never_shrinks `{Collator} (st : AppState) (k : string)
    (e : EpisodeRecord) :
  In k (selectedKeywords st) ->
  In e (displayed (applyFilters st)) ->
  In e (displayed (handleKeywordFilter k false st)).
Proof.
  intros _. unfold handleKeywordFilter. rewrite !In_applyFilters. cbn.
  intros (Hall & Hkw & Hq). repeat split; try assumption.
  intros k' Hk'. apply JSSetFacts.In_delete in Hk' as [Hk' _]. now apply Hkw.
Qed.

Lemma unselect_never_shrinks_witness :
  In Samples.brian
     (displayed (@handleKeywordFilter Samples.byCodeUnits "growth" false
                   Samples.growthSelected)).
Proof.
  apply unselect_never_shrinks.
  - vm_compute. now left.
  - vm_compute. now left.
Defined.

(** The code-unit collator never puts two strings in no order. *)
Lemma byCodeUnits_total (a b : string) :
  (0 < Samples.byCodeUnits a b)%Z -> (Samples.byCodeUnits b a <= 0)%Z.
Proof.
  unfold Samples.byCodeUnits. rewrite (String.compare_antisym a b).
  destruct (String.compare b a); simpl; lia.
Qed.

(** C3. Provided [localeCompare] never leaves two strings in no order,
    [sortEpisodes] leaves a permutation of the displayed records, in which
    each record has at least the views of the next (mode [views]), at least
    the duration of the next (mode [duration]), or a guest name that
    collates no later than the next (mode [title]); changing the sort mode
    displays a permutation of what was displayed. *)
Theorem sortEpisodes_orders `{Collator} (st : AppState) :
  (forall a b, (0 < localeCompare a b)%Z -> (localeCompare b a <= 0)%Z) ->
  let out := displayed (sortEpisodes st) in
  Permutation (displayed st) out /\
  (currentSort st = "views"%string ->
     Sorted (fun a b => (view_count a >= view_count b)%Z) out) /\
  (currentSort st = "duration"%string ->
     Sorted (fun a b => (duration_seconds a >= duration_seconds b)%Z) out) /\
  (currentSort st = "title"%string ->
     Sorted (fun a b => (localeCompare (guest a) (guest b) <= 0)%Z) out) /\
  (forall mode, Permutation (displayed st) (displayed (handleSortChange mode st))).
Proof.
  intros Htotal out. unfold out. rewrite displayed_sortEpisodes.
  split; [apply sortedBy_perm|].
  split; [|split; [|split]].
  - intros ->. unfold sortedBy. cbn [String.eqb Ascii.eqb Bool.eqb].
    eapply Sorted_weaken; [|apply JSArrayFacts.sort_sorted].
    + unfold JSArray.inOrder. intros a b. lia.
    + intros a b. lia.
  - intros ->. unfold sortedBy. cbn [String.eqb Ascii.eqb Bool.eqb].
    eapply Sorted_weaken; [|apply JSArrayFacts.sort_sorted].
    + unfold JSArray.inOrder. intros a b. lia.
    + intros a b. lia.
  - intros ->. unfold sortedBy. cbn [String.eqb Ascii.eqb Bool.eqb].
    apply (JSArrayFacts.sort_sorted
             (fun a b => localeCompare (guest a) (guest b))).
    intros a b. apply Htotal.
  - intros mode. unfold handleSortChange. rewrite displayed_sortEpisodes.
    apply sortedBy_perm.
Qed.

Lemma sortEpisodes_orders_witness :
  Sorted (fun a b => (Samples.byCodeUnits (guest a) (guest b) <= 0)%Z)
         (displayed (@sortEpisodes Samples.byCodeUnits Samples.byGuest)).
Proof.
  refine (proj1 (proj2 (proj2 (proj2
            (@sortEpisodes_orders Samples.byCodeUnits Samples.byGuest
               byCodeUnits_total)))) _).
  reflexivity.
Defined.

End PipelineClaims.

(** ** The chat client *)

Module ChatFacts.
Import JSValue Chat.

Lemma history_recordExchange (message : string) (reply : jsval) (cs : ChatState) :
  conversationHistory (recordExchange message reply cs) =
  JSArray.sliceLast 10
    (conversationHistory cs ++
     [userTurn message; {| role := "assistant"; content := reply |}]).
Proof.
  unfold recordExchange, userTurn.
  destruct (10 <? _)%nat eqn:Hlen; simpl; [reflexivity|].
  apply Nat.ltb_ge in Hlen. now rewrite JSArrayFacts.sliceLast_all.
Qed.

Lemma length_recordExchange (message : string) (reply : jsval) (cs : ChatState) :
  length (conversationHistory (recordExchange message reply cs)) <= 10.
Proof. rewrite history_recordExchange, JSArrayFacts.length_sliceLast. lia. Qed.

Lemma recordExchange_config (message : string) (reply : jsval) (cs : ChatState) :
  apiKey (recordExchange message reply cs) = apiKey cs /\
  provider (recordExchange message reply cs) = provider cs.
Proof. unfold recordExchange. now destruct (10 <? _)%nat. Qed.

(** A chain of steps that ends in a [throw] throws. *)
Lemma bind_throws {A B : Type} (r : Result A) (k : A -> Result B) :
  (forall a, exists e, k a = Throw e) -> exists e, bind r k = Throw e.
Proof. intros Hk. destruct r as [a|e]; simpl; [apply Hk | now exists e]. Qed.

(** The branch of a response that is not ok always throws. *)
Lemma notOk_throws (json : option jsval) (fallback : jsval) :
  exists e,
    (error <- responseJson json ;;
     inner <- get error "error" ;;
     msg <- getOptional inner "message" ;;
     Throw (Error (orElse msg fallback))) = @Throw jsval e.
Proof.
  destruct json as [error|]; simpl; [|eauto].
  destruct (get error "error") as [inner|]; simpl; [|eauto].
  destruct (getOptional inner "message"); simpl; eauto.
Qed.

Lemma settleClaude_settled (message : string) (response : JsonResponse)
    (cs : ChatState) :
  settled message cs (settleClaude message response cs).
Proof.
  unfold settleClaude. destruct response as [msg | [|] json].
  - constructor.
  - destruct (bind _ _); constructor.
  - destruct (notOk_throws json (VStr "Failed to get response from Claude"))
      as [e ->]. constructor.
Qed.

Lemma settleOpenAI_settled (message : string) (response : JsonResponse)
    (cs : ChatState) :
  settled message cs (settleOpenAI message response cs).
Proof.
  unfold settleOpenAI. destruct response as [msg | [|] json].
  - constructor.
  - destruct (bind _ _); constructor.
  - destruct (notOk_throws json (VStr "Failed to get response from OpenAI"))
      as [e ->]. constructor.
Qed.

Lemma queryAI_settled (net : Network) (message : string) (context : ChatContext)
    (cs : ChatState) :
  settled message cs (snd (queryAI net message context cs)).
Proof.
  unfold queryAI, queryClaude, queryOpenAI.
  destruct (String.eqb _ _); simpl;
    [apply settleClaude_settled | apply settleOpenAI_settled].
Qed.

(** A reply comes only out of a response that is ok and parses. *)
Lemma settleClaude_ok (message : string) (response : JsonResponse)
    (cs : ChatState) (text : jsval) :
  snd (settleClaude message response cs) = Ok text ->
  exists json, response = Responded true (Some json).
Proof.
  unfold settleClaude. destruct response as [msg | [|] json]; simpl.
  - discriminate.
  - destruct json; [eauto | discriminate].
  - destruct (notOk_throws json (VStr "Failed to get response from Claude"))
      as [e ->]. discriminate.
Qed.

Lemma settleOpenAI_ok (message : string) (response : JsonResponse)
    (cs : ChatState) (text : jsval) :
  snd (settleOpenAI message response cs) = Ok text ->
  exists json, response = Responded true (Some json).
Proof.
  unfold settleOpenAI. destruct response as [msg | [|] json]; simpl.
  - discriminate.
  - destruct json; [eauto | discriminate].
  - destruct (notOk_throws json (VStr "Failed to get response from OpenAI"))
      as [e ->]. discriminate.
Qed.

Lemma queryAI_response (net : Network) (message : string)
    (context : ChatContext) (cs : ChatState) :
  let q := queryAI net message context cs in
  snd q =
    if String.eqb (provider cs) "claude"
    then settleClaude message (net (requestOf q)) cs
    else settleOpenAI message (net (requestOf q)) cs.
Proof.
  unfold queryAI, queryClaude, queryOpenAI, requestOf.
  now destruct (String.eqb _ _).
Qed.

(** [sendChatMessage] changes the chat state through [queryAI] only. *)
Lemma chat_sendChatMessage (net : Network) (w : World) :
  chat (sendChatMessage net w) = chat w \/
  chat (sendChatMessage net w) =
    chatAfter (queryAI net (JSString.trim (chatInput w))
                 (getContextForChat (app w)) (chat w)).
Proof.
  unfold sendChatMessage, chatAfter.
  destruct (negb (JSString.truthy (JSString.trim _))); [now left|].
  destruct (negb (JSString.truthy (apiKey _))); [now left|].
  right. cbn [addChatMessage app chat].
  now destruct (queryAI _ _ _ _) as [request [cs result]].
Qed.

Lemma length_chat_sendChatMessage (net : Network) (w : World) :
  length (conversationHistory (chat w)) <= 10 ->
  length (conversationHistory (chat (sendChatMessage net w))) <= 10.
Proof.
  intros Hw. destruct (chat_sendChatMessage net w) as [-> | ->]; [assumption|].
  unfold chatAfter.
  destruct (queryAI_settled net (JSString.trim (chatInput w))
              (getContextForChat (app w)) (chat w)); simpl.
  - apply length_recordExchange.
  - assumption.
Qed.

Lemma length_chatStep (w : World) (ev : ChatEvent) :
  length (conversationHistory (chat w)) <= 10 ->
  length (conversationHistory (chat (chatStep w ev))) <= 10.
Proof.
  intros Hw. destruct ev; simpl; try assumption.
  - now apply length_chat_sendChatMessage.
  - lia.
Qed.

Lemma length_chat_run (events : list ChatEvent) (w : World) :
  length (conversationHistory (chat w)) <= 10 ->
  length (conversationHistory (chat (fold_left chatStep events w))) <= 10.
Proof.
  revert w. induction events as [|ev events IH]; intros w Hw; simpl.
  - assumption.
  - apply IH. now apply length_chatStep.
Qed.

Lemma settle_settled (providerName message : string) (response : JsonResponse)
    (cs : ChatState) :
  settled message cs (ChatAsync.settle providerName message response cs).
Proof.
  unfold ChatAsync.settle. destruct (String.eqb providerName "claude");
    [apply settleClaude_settled | apply settleOpenAI_settled].
Qed.

Lemma chat_sendBefore (w : World) :
  chat (fst (ChatAsync.sendBefore w)) = chat w.
Proof.
  unfold ChatAsync.sendBefore.
  destruct (negb (JSString.truthy (JSString.trim _))); [reflexivity|].
  now destruct (negb (JSString.truthy (apiKey _))).
Qed.

Lemma length_chat_sendAfter (p : ChatAsync.Pending) (response : JsonResponse)
    (w : World) :
  length (conversationHistory (chat w)) <= 10 ->
  length (conversationHistory (chat (ChatAsync.sendAfter p response w))) <= 10.
Proof.
  intros Hw. unfold ChatAsync.sendAfter.
  destruct (settle_settled (ChatAsync.pendingProvider p)
              (ChatAsync.pendingMessage p) response (chat w)); cbn [chat].
  - apply length_recordExchange.
  - assumption.
Qed.

Lemma length_asyncStep (s : ChatAsync.AsyncWorld) (ev : ChatAsync.AsyncEvent) :
  length (conversationHistory (chat (fst s))) <= 10 ->
  length (conversationHistory (chat (fst (ChatAsync.asyncStep s ev)))) <= 10.
Proof.
  destruct s as [w underWay]. cbn [fst]. intros Hw.
  destruct ev as [ev| |i response]; cbn [ChatAsync.asyncStep].
  - now apply length_chatStep.
  - pose proof (chat_sendBefore w) as Hchat.
    destruct (ChatAsync.sendBefore w) as [w' p]. cbn [fst] in *.
    now rewrite Hchat.
  - destruct (nth_error underWay i) as [p|]; cbn [fst];
      [now apply length_chat_sendAfter | assumption].
Qed.

Lemma length_async_run (events : list ChatAsync.AsyncEvent)
    (s : ChatAsync.AsyncWorld) :
  length (conversationHistory (chat (fst s))) <= 10 ->
  length (conversationHistory
            (chat (fst (fold_left ChatAsync.asyncStep events s)))) <= 10.
Proof.
  revert s. induction events as [|ev events IH]; intros s Hs; simpl.
  - assumption.
  - apply IH. now apply length_asyncStep.
Qed.

End ChatFacts.

(** ** Claims on the chat client *)

Module ChatClaims.
Import JSValue Chat ChatFacts.

Local Set Warnings "-abstract-large-number".

(** C4. The chat context holds the number of episodes, the number of
    displayed episodes and the selected keywords.  With a detail view open
    it holds the guest, title and keywords of the open episode and the first
    8000 characters of its transcript; with none open it holds no episode,
    and the summaries of the first ten displayed episodes (which it holds in
    either case).  The excerpt is at most 8000 characters long and there
    are at most ten summaries. *)
Theorem getContextForChat_bounded (st : AppState) :
  let context := getContextForChat st in
  totalEpisodes context = length (App.allList st) /\
  filteredEpisodes context = length (App.displayed st) /\
  selectedKeywords context = Model.selectedKeywords st /\
  (forall cur, Model.currentEpisode st = Some cur ->
     exists excerpt rest,
       currentEpisode context =
         Some {| guest := Model.guest (shown cur);
                 title := Model.title (shown cur);
                 keywords := Model.keywords (shown cur);
                 transcript := excerpt |} /\
       fullTranscript cur = excerpt +:+ rest /\
       String.length excerpt = Nat.min 8000 (String.length (fullTranscript cur))) /\
  (Model.currentEpisode st = None -> currentEpisode context = None) /\
  (exists firstTen others,
     App.displayed st = firstTen ++ others /\
     length firstTen = Nat.min 10 (length (App.displayed st)) /\
     availableEpisodes context =
       map (fun ep => {| summary_guest := Model.guest ep;
                         summary_title := Model.title ep;
                         summary_keywords := Model.keywords ep |}) firstTen) /\
  (forall cur, currentEpisode context = Some cur ->
     String.length (transcript cur) <= 8000) /\
  length (availableEpisodes context) <= 10.
Proof.
  cbv zeta. unfold getContextForChat. cbn [totalEpisodes filteredEpisodes
    selectedKeywords currentEpisode availableEpisodes].
  repeat split.
  - intros cur ->.
    destruct (JSStringFacts.take_prefix 8000 (fullTranscript cur)) as [rest Hrest].
    exists (JSString.take 8000 (fullTranscript cur)), rest.
    repeat split; [exact Hrest | apply JSStringFacts.length_take].
  - now intros ->.
  - exists (firstn 10 (App.displayed st)), (skipn 10 (App.displayed st)).
    repeat split; [now rewrite firstn_skipn | apply length_firstn].
  - intros cur. destruct (Model.currentEpisode st) as [open|]; [|discriminate].
    generalize (JSStringFacts.length_take 8000 (fullTranscript open)).
    generalize (JSString.take 8000 (fullTranscript open)).
    intros excerpt Hlen [= <-]. cbn [transcript]. rewrite Hlen.
    apply Nat.le_min_l.
  - rewrite length_map, JSArrayFacts.length_sliceTo. lia.
Qed.

(** Once the response is there and holds a reply, the provider function
    records the exchange, on the chat state as it is then. *)
Lemma settle_recorded (providerName message : string) (data text : jsval)
    (later : ChatState) :
  ChatAsync.replyText providerName data = Ok text ->
  ChatAsync.settle providerName message (Responded true (Some data)) later
  = (recordExchange message text later, Ok text).
Proof.
  unfold ChatAsync.replyText, ChatAsync.settle, settleClaude, settleOpenAI,
    ChatAsync.claudeText, ChatAsync.openAIText.
  destruct (String.eqb providerName "claude"); cbn [responseJson bind];
    now intros ->.
Qed.

Lemma queryAI_settle (net : Network) (message : string)
    (context : ChatContext) (cs : ChatState) :
  let q := queryAI net message context cs in
  snd q = ChatAsync.settle (provider cs) message (net (requestOf q)) cs.
Proof.
  cbv zeta. rewrite (queryAI_response net message context cs).
  reflexivity.
Qed.

(** C5. When the provider answers a request with a response that is ok and
    whose body holds a reply text, the query returns that text and leaves
    as history the last ten turns of the old history followed by the user
    turn and the assistant turn: at most ten turns, the oldest ones
    dropped; the same holds on whatever the history is when the response
    arrives.  From the start of the page on, and whatever is typed, sent,
    answered or cleared, the history holds at most ten turns, also when
    sends overlap and their responses arrive in any order. *)
Theorem history_capped (net : Network) (message : string)
    (context : ChatContext) (cs : ChatState) (data text : jsval) :
  net (requestOf (queryAI net message context cs)) = Responded true (Some data) ->
  ChatAsync.replyText (provider cs) data = Ok text ->
  let q := queryAI net message context cs in
  let turns :=
    [ {| role := "user"; content := VStr message |};
      {| role := "assistant"; content := text |} ] in
  resultOf q = Ok text /\
  conversationHistory (chatAfter q)
  = JSArray.sliceLast 10 (conversationHistory cs ++ turns) /\
  length (conversationHistory (chatAfter q))
  = Nat.min 10 (length (conversationHistory cs) + 2) /\
  (exists dropped,
     conversationHistory cs ++ turns
     = dropped ++ conversationHistory (chatAfter q)) /\
  (forall later,
     conversationHistory
       (fst (ChatAsync.settle (provider cs) message
               (Responded true (Some data)) later))
     = JSArray.sliceLast 10 (conversationHistory later ++ turns)) /\
  (forall st storedKey storedProvider events,
     length (conversationHistory
               (chat (fold_left chatStep events
                        (initialWorld st storedKey storedProvider)))) <= 10) /\
  (forall st storedKey storedProvider events,
     length (conversationHistory
               (chat (fst (fold_left ChatAsync.asyncStep events
                             (initialWorld st storedKey storedProvider, [])))))
     <= 10).
Proof.
  intros Hnet Hreply q turns.
  assert (Hq : snd q = (recordExchange message text cs, Ok text)).
  { unfold q. rewrite (queryAI_settle net message context cs), Hnet.
    now apply settle_recorded. }
  assert (Hhist : conversationHistory (chatAfter q)
                  = JSArray.sliceLast 10 (conversationHistory cs ++ turns)).
  { unfold chatAfter. rewrite Hq. apply history_recordExchange. }
  split; [unfold resultOf; now rewrite Hq|].
  split; [exact Hhist|]. rewrite Hhist.
  split; [|split; [|split; [|split]]].
  - rewrite JSArrayFacts.length_sliceLast, length_app. reflexivity.
  - eexists. apply JSArrayFacts.sliceLast_suffix.
  - intros later. rewrite (settle_recorded _ _ _ _ _ Hreply).
    apply history_recordExchange.
  - intros st storedKey storedProvider events.
    apply length_chat_run. simpl. lia.
  - intros st storedKey storedProvider events.
    apply length_async_run. simpl. lia.
Qed.

Lemma history_capped_witness :
  let net := Samples.answers true (Some (Samples.claudeReply "Yes.")) in
  let q := queryAI net "And then?" (getContextForChat Samples.loaded)
             MoreSamples.fiveExchanges in
  resultOf q = Ok (VStr "Yes.") /\
  conversationHistory (chatAfter q)
  = skipn 2 (conversationHistory MoreSamples.fiveExchanges)
    ++ [ {| role := "user"; content := VStr "And then?" |};
         {| role := "assistant"; content := VStr "Yes." |} ].
Proof.
  cbv zeta.
  destruct (history_capped
              (Samples.answers true (Some (Samples.claudeReply "Yes.")))
              "And then?" (getContextForChat Samples.loaded)
              MoreSamples.fiveExchanges
              (Samples.claudeReply "Yes.") (VStr "Yes.") eq_refl eq_refl)
    as (Hresult & Hhistory & _).
  split; [exact Hresult|]. rewrite Hhistory. reflexivity.
Defined.

(** Twelve turns before the cap leave the last ten. *)
Example history_capped_sixth_exchange :
  let net := Samples.answers true (Some (Samples.claudeReply "Yes.")) in
  let w := fold_left chatStep
             (concat (repeat [TypeInput "Why?"; Send net] 6))
             (Samples.world "sk-test" "") in
  length (chatMessages w) = 12 /\ length (conversationHistory (chat w)) = 10.
Proof. vm_compute. split; reflexivity. Qed.

(** C6. With no API key configured, a send makes no request, whatever the
    network would answer, and leaves the send button and the chat state as
    they were; when the chat box holds a message, the one thing added to the
    chat is the error asking for the key. *)
Theorem sendChatMessage_without_key (net : Network) (w : World) :
  apiKey (chat w) = ""%string ->
  let w' := sendChatMessage net w in
  sent w' = sent w /\
  sendDisabled w' = sendDisabled w /\
  sendLabel w' = sendLabel w /\
  chat w' = chat w /\
  (JSString.trim (chatInput w) <> ""%string ->
     chatMessages w' =
       chatMessages w ++ [("error", Plain "Please enter your API key first.")]).
Proof.
  intros Hkey. cbv zeta. unfold sendChatMessage. rewrite Hkey.
  destruct (JSString.trim (chatInput w)) as [|c message] eqn:Hmessage; simpl.
  - repeat split. congruence.
  - repeat split.
Qed.

Lemma sendChatMessage_without_key_witness :
  let w := Samples.world "" "Which episodes discuss growth?" in
  let w' := sendChatMessage
              (Samples.answers true (Some (Samples.claudeReply "Many."))) w in
  sent w' = [] /\ sendDisabled w' = false.
Proof.
  cbv zeta.
  pose proof (sendChatMessage_without_key
                (Samples.answers true (Some (Samples.claudeReply "Many.")))
                (Samples.world "" "Which episodes discuss growth?")
                eq_refl) as (Hsent & Hdisabled & _).
  split; [exact Hsent | exact Hdisabled].
Defined.

(** C10. A query that throws leaves the chat state, and with it the history,
    as it was.  That is what happens when the fetch rejects and when the
    response is not ok; a reply is returned only from a response that is ok
    and whose body parsed, and at the level of [sendChatMessage] such a
    failed exchange leaves the history as it was. *)
Theorem failed_exchange_keeps_history (net : Network) (message : string)
    (context : ChatContext) (cs : ChatState) :
  let q := queryAI net message context cs in
  (forall e, resultOf q = Throw e -> chatAfter q = cs) /\
  (forall msg, net (requestOf q) = Rejected msg ->
     resultOf q = Throw (NetworkError msg) /\ chatAfter q = cs) /\
  (forall json, net (requestOf q) = Responded false json ->
     (exists e, resultOf q = Throw e) /\ chatAfter q = cs) /\
  (forall text, resultOf q = Ok text ->
     exists json, net (requestOf q) = Responded true (Some json)) /\
  (forall w, (forall json, net (requestOf
                (queryAI net (JSString.trim (chatInput w))
                   (getContextForChat (app w)) (chat w)))
              <> Responded true json) ->
     chat (sendChatMessage net w) = chat w).
Proof.
  cbv zeta.
  assert (Hthrow : forall m c s e,
            resultOf (queryAI net m c s) = Throw e ->
            chatAfter (queryAI net m c s) = s).
  { intros m c s e. unfold resultOf, chatAfter.
    destruct (queryAI_settled net m c s); simpl; [discriminate | reflexivity]. }
  assert (Hok : forall m c s text,
            resultOf (queryAI net m c s) = Ok text ->
            exists json, net (requestOf (queryAI net m c s))
                         = Responded true (Some json)).
  { intros m c s text. unfold resultOf.
    rewrite (queryAI_response net m c s).
    destruct (String.eqb _ _);
      [apply settleClaude_ok | apply settleOpenAI_ok]. }
  assert (Hrejected : forall msg,
            net (requestOf (queryAI net message context cs)) = Rejected msg ->
            resultOf (queryAI net message context cs) = Throw (NetworkError msg)).
  { intros msg Hnet. unfold resultOf.
    rewrite (queryAI_response net message context cs), Hnet.
    now destruct (String.eqb _ _). }
  assert (HnotOk : forall json,
            net (requestOf (queryAI net message context cs)) = Responded false json ->
            exists e, resultOf (queryAI net message context cs) = Throw e).
  { intros json Hnet.
    destruct (resultOf (queryAI net message context cs)) as [text|e] eqn:Hres;
      [|eauto].
    apply Hok in Hres as [json' Hres]. congruence. }
  split; [apply Hthrow | split; [|split; [|split]]].
  - intros msg Hnet. split; [now apply Hrejected|].
    eapply Hthrow, Hrejected, Hnet.
  - intros json Hnet. split; [now apply (HnotOk json)|].
    destruct (HnotOk json Hnet) as [e He]. eapply Hthrow, He.
  - apply Hok.
  - intros w Hnet. destruct (chat_sendChatMessage net w) as [-> | ->];
      [reflexivity|].
    destruct (resultOf (queryAI net (JSString.trim (chatInput w))
                          (getContextForChat (app w)) (chat w)))
      as [text|e] eqn:Hres.
    + apply Hok in Hres as [json Hres]. now apply Hnet in Hres.
    + eapply Hthrow, Hres.
Qed.

(** A provider that is overloaded: the error is shown, nothing is recorded. *)
Example overloaded_exchange :
  let w := sendChatMessage (Samples.answers false (Some Samples.overloaded))
             (Samples.world "sk-test" "Why?") in
  conversationHistory (chat w) = [] /\
  chatMessages w =
    [("user", Plain "Why?"); ("error", ErrorOf (Error (VStr "Overloaded")))] /\
  length (sent w) = 1.
Proof. vm_compute. repeat split. Qed.

End ChatClaims.

(** ** The detail loader *)

Module FrontmatterFacts.
Import Frontmatter JSStringFacts.

Lemma stripPrefix_spec (p s rest : string) :
  stripPrefix p s = Some rest <-> s = p +:+ rest.
Proof.
  revert s. induction p as [|a p IH]; intros s; simpl; str_simpl.
  - split; congruence.
  - destruct s as [|b s]; [split; discriminate|].
    destruct (Ascii.eqb a b) eqn:Hab.
    + apply Ascii.eqb_eq in Hab. subst b. rewrite IH. split; congruence.
    + apply Ascii.eqb_neq in Hab. split; [discriminate | congruence].
Qed.

Lemma In_lit (p s rest : string) : In rest (lit p s) <-> s = p +:+ rest.
Proof.
  unfold lit. rewrite <- stripPrefix_spec.
  destruct (stripPrefix p s) as [r|]; simpl; [|split; [tauto | discriminate]].
  split; [intros [-> | []]; reflexivity | intros [= ->]; now left].
Qed.

Lemma In_wsStar (s rest : string) :
  In rest (wsStar s) <->
  exists ws, whiteSpaceOnly ws = true /\ s = ws +:+ rest.
Proof.
  induction s as [|c s IH]; simpl.
  - split.
    + intros [<- | []]. now exists ""%string.
    + intros [[|c ws] [_ Hs]]; str_simpl; [now left | discriminate].
  - assert (Hhere : String c s = rest <->
              exists ws, ws = ""%string /\ String c s = ws +:+ rest).
    { split; [intros <-; now exists ""%string | now intros [ws [-> Hs]]]. }
    destruct (JSString.isWhiteSpace c) eqn:Hc.
    + rewrite in_app_iff, IH. simpl. split.
      * intros [[ws [Hws Hs]] | [<- | []]].
        -- exists (String c ws). simpl. rewrite Hc, Hws. str_simpl. now rewrite Hs.
        -- now exists ""%string.
      * intros [[|c' ws] [Hws Hs]]; str_simpl.
        -- right. now left.
        -- left. injection Hs as <- Hs. simpl in Hws.
           apply andb_true_iff in Hws as [_ Hws]. now exists ws.
    + simpl. split.
      * intros [<- | []]. now exists ""%string.
      * intros [[|c' ws] [Hws Hs]]; str_simpl; [now left|].
        injection Hs as <- Hs. simpl in Hws. rewrite Hc in Hws. discriminate.
Qed.

Lemma In_anyLazy (s rest : string) :
  In rest (anyLazy s) <-> exists skipped, s = skipped +:+ rest.
Proof.
  induction s as [|c s IH]; simpl.
  - split.
    + intros [<- | []]. now exists ""%string.
    + intros [[|c skipped] Hs]; str_simpl; [now left | discriminate].
  - rewrite IH. split.
    + intros [<- | [skipped Hs]]; [now exists ""%string|].
      exists (String c skipped). str_simpl. now rewrite Hs.
    + intros [[|c' skipped] Hs]; str_simpl; [now left|].
      right. injection Hs as <- Hs. now exists skipped.
Qed.

Lemma In_andThen (first next : string -> list string) (s rest : string) :
  In rest ((first >>> next) s) <->
  exists mid, In mid (first s) /\ In rest (next mid).
Proof. unfold andThen. apply in_flat_map. Qed.

(** The matcher finds group 1 exactly where the text reads as the pattern. *)
Lemma In_captures (fullText body : string) :
  In body (captures fullText) <->
  exists ws1 meta ws2,
    whiteSpaceOnly ws1 = true /\ whiteSpaceOnly ws2 = true /\
    fullText =
      "---" +:+ ws1 +:+ JSString.newline +:+ meta +:+
      (JSString.newline +:+ "---") +:+ ws2 +:+ JSString.newline +:+ body.
Proof.
  unfold captures, pattern. split.
  - intros Hin.
    apply In_andThen in Hin as (r7 & Hin & Hbody).
    apply In_andThen in Hin as (r6 & Hin & H7).
    apply In_andThen in Hin as (r5 & Hin & H6).
    apply In_andThen in Hin as (r4 & Hin & H5).
    apply In_andThen in Hin as (r3 & Hin & H4).
    apply In_andThen in Hin as (r2 & Hin & H3).
    apply In_andThen in Hin as (r1 & H1 & H2).
    apply In_lit in H1, H3, H5, H7.
    apply In_wsStar in H2 as (ws1 & Hws1 & H2), H6 as (ws2 & Hws2 & H6).
    apply In_anyLazy in H4 as (meta & H4).
    destruct Hbody as [<- | []].
    exists ws1, meta, ws2. repeat split; try assumption.
    now rewrite H1, H2, H3, H4, H5, H6, H7.
  - intros (ws1 & meta & ws2 & Hws1 & Hws2 & ->).
    repeat (apply In_andThen; eexists; split); cycle 1.
    + apply In_wsStar. exists ws1. split; [exact Hws1 | reflexivity].
    + apply In_lit. reflexivity.
    + apply In_anyLazy. exists meta. reflexivity.
    + apply In_lit. reflexivity.
    + apply In_wsStar. exists ws2. split; [exact Hws2 | reflexivity].
    + apply In_lit. reflexivity.
    + now left.
    + apply In_lit. reflexivity.
Qed.

Lemma matchGroup_None (fullText : string) :
  matchGroup fullText = None <-> ~ hasFrontmatter fullText.
Proof.
  unfold matchGroup, hasFrontmatter. split.
  - intros Hnone (ws1 & meta & ws2 & body & Hws1 & Hws2 & Htext).
    assert (Hin : In body (captures fullText)).
    { apply In_captures. now exists ws1, meta, ws2. }
    destruct (captures fullText); [destruct Hin | discriminate].
  - intros Hno. destruct (captures fullText) as [|body rest] eqn:Hc; [reflexivity|].
    exfalso. apply Hno.
    assert (Hin : In body (captures fullText)) by (rewrite Hc; now left).
    apply In_captures in Hin as (ws1 & meta & ws2 & Hws1 & Hws2 & Htext).
    now exists ws1, meta, ws2, body.
Qed.

(** What the matcher captures is the body of a metadata block. *)
Lemma matchGroup_Some (fullText body : string) :
  matchGroup fullText = Some body ->
  exists ws1 meta ws2,
    whiteSpaceOnly ws1 = true /\ whiteSpaceOnly ws2 = true /\
    fullText =
      "---" +:+ ws1 +:+ JSString.newline +:+ meta +:+
      (JSString.newline +:+ "---") +:+ ws2 +:+ JSString.newline +:+ body.
Proof.
  unfold matchGroup. intros Hsome. apply In_captures.
  destruct (captures fullText); [discriminate|].
  injection Hsome as ->. now left.
Qed.

End FrontmatterFacts.

Module DetailClaims.
Import App FrontmatterFacts.

(** C7, as the specification states it, fails: a transcript without a
    metadata block that ends in a line feed is not returned unmodified. *)
Lemma parseTranscript_plain_text_modified :
  ~ (forall fullText,
       ~ hasFrontmatter fullText ->
       content (parseTranscript fullText) = fullText).
Proof.
  intros Hclaim. specialize (Hclaim Samples.plainTranscript).
  assert (Hplain : ~ hasFrontmatter Samples.plainTranscript)
    by (apply matchGroup_None; reflexivity).
  apply Hclaim in Hplain. vm_compute in Hplain. discriminate.
Qed.

(** C7, amended.  When the text does not open with a metadata block, the
    body is the whole text with the white space at its two ends removed. *)
Theorem parseTranscript_without_frontmatter (fullText : string) :
  ~ hasFrontmatter fullText ->
  content (parseTranscript fullText) = JSString.trim fullText.
Proof.
  intros Hno. apply matchGroup_None in Hno.
  unfold parseTranscript. now rewrite Hno.
Qed.

Lemma parseTranscript_without_frontmatter_witness :
  content (parseTranscript Samples.plainTranscript) = "Hello.".
Proof.
  rewrite parseTranscript_without_frontmatter.
  - reflexivity.
  - apply matchGroup_None. reflexivity.
Defined.

End DetailClaims.

(** ** The index document during a session *)

Module SessionFacts.
Import App AppFacts Session.

Lemma wellFormed_initial : wellFormed initial.
Proof.
  unfold wellFormed, initial. cbn.
  split; [set_solver | split; [set_solver | split; discriminate]].
Qed.

Lemma newArray_fresh (st : AppState) (l : loc) :
  l ∈ dom (arrays st) -> l <> newArray st.
Proof. intros Hl ->. now apply (is_fresh (dom (arrays st))). Qed.

(** [loadIndex] builds two new arrays and touches no other. *)
Lemma wellFormed_loadIndex (fetched : option IndexPayload) (st : AppState) :
  wellFormed st -> wellFormed (loadIndex fetched st).
Proof.
  intros Hwf. destruct fetched as [p|]; [|exact Hwf].
  unfold wellFormed, loadIndex. cbn.
  set (a := newArray st).
  set (heap1 := <[a := payload_episodes p]> (arrays st)).
  assert (Ha : a ∈ dom heap1).
  { apply elem_of_dom. unfold heap1. rewrite lookup_insert_eq. eauto. }
  pose proof (is_fresh (dom heap1)) as Hf.
  assert (Hf' : fresh (dom heap1) <> a) by (intros Heq; apply Hf; now rewrite Heq).
  split; [|split; [|split]].
  - apply elem_of_dom. rewrite lookup_insert_ne by exact Hf'.
    unfold heap1. rewrite lookup_insert_eq. eauto.
  - apply elem_of_dom. rewrite lookup_insert_eq. eauto.
  - intros Heq. apply Hf. now rewrite <- Heq.
  - now intros idx [= <-].
Qed.

Lemma allList_loadIndex (p : IndexPayload) (st : AppState) :
  allList (loadIndex (Some p) st) = payload_episodes p /\
  displayed (loadIndex (Some p) st) = payload_episodes p /\
  indexEpisodes (loadIndex (Some p) st) = Some (payload_episodes p) /\
  indexKeywords (loadIndex (Some p) st) = Some (payload_keywords p).
Proof.
  unfold allList, displayed, readArray, indexEpisodes, indexKeywords, loadIndex.
  cbn.
  set (a := newArray st).
  set (heap1 := <[a := payload_episodes p]> (arrays st)).
  assert (Ha : a ∈ dom heap1).
  { apply elem_of_dom. unfold heap1. rewrite lookup_insert_eq. eauto. }
  pose proof (is_fresh (dom heap1)) as Hf.
  assert (Hne : fresh (dom heap1) <> a) by (intros Heq; apply Hf; now rewrite Heq).
  rewrite lookup_insert_eq, (lookup_insert_ne _ _ _ _ Hne).
  unfold heap1. now rewrite lookup_insert_eq.
Qed.

Section Steps.
Context `{Collator}.

(** Sorting rewrites the displayed array and no other. *)
Lemma arrays_sortEpisodes (st : AppState) (l : loc) :
  l <> filteredEpisodes st ->
  arrays (sortEpisodes st) !! l = arrays st !! l.
Proof. intros Hl. unfold sortEpisodes. cbn. now rewrite lookup_alter_ne. Qed.

(** Filtering builds a new array and rewrites none that existed. *)
Lemma arrays_applyFilters (st : AppState) (l : loc) :
  l ∈ dom (arrays st) ->
  arrays (applyFilters st) !! l = arrays st !! l.
Proof.
  intros Hl. apply newArray_fresh in Hl.
  unfold applyFilters. rewrite arrays_sortEpisodes by (cbn; congruence).
  cbn. now rewrite lookup_insert_ne.
Qed.

Lemma wellFormed_sortEpisodes (st : AppState) :
  wellFormed st -> wellFormed (sortEpisodes st).
Proof.
  unfold wellFormed, sortEpisodes. cbn. now rewrite dom_alter_L.
Qed.

Lemma wellFormed_applyFilters (st : AppState) :
  wellFormed st -> wellFormed (applyFilters st).
Proof.
  intros (Hall & Hfil & Hne & Hidx). apply newArray_fresh in Hall as Hfresh.
  apply wellFormed_sortEpisodes. unfold wellFormed. cbn.
  rewrite dom_insert_L.
  split; [set_solver | split; [set_solver | split; assumption]].
Qed.

Lemma framed_same_store (st st' : AppState) :
  arrays st' = arrays st -> indexData st' = indexData st ->
  allEpisodes st' = allEpisodes st -> framed st st'.
Proof.
  intros Harr Hidx Hall. unfold framed, indexEpisodes, indexKeywords.
  rewrite Harr, Hidx, Hall. repeat split.
  now destruct (indexData st).
Qed.

Lemma framed_trans (st1 st2 st3 : AppState) :
  framed st1 st2 -> framed st2 st3 -> framed st1 st3.
Proof.
  unfold framed. intros (Ha & Harr & Hie & Hkw) (Ha' & Harr' & Hie' & Hkw').
  split; [congruence | split; [|split; [congruence|]]].
  - rewrite <- Harr, <- Ha. exact Harr'.
  - destruct (indexKeywords st1), (indexKeywords st2), (indexKeywords st3);
      try tauto. now transitivity l0.
Qed.

(** With the store in shape, an operation that rewrites no array that
    existed before, except perhaps the displayed one, leaves the index
    alone. *)
Lemma framed_other_arrays (st st' : AppState) :
  wellFormed st ->
  indexData st' = indexData st -> allEpisodes st' = allEpisodes st ->
  arrays st' !! allEpisodes st = arrays st !! allEpisodes st ->
  framed st st'.
Proof.
  intros (Hall & Hfil & Hne & Hidx) Hi Ha Harr.
  unfold framed, indexEpisodes, indexKeywords. rewrite Hi.
  split; [exact Ha | split; [exact Harr | split]].
  - destruct (indexData st) as [idx|] eqn:Hd; [|reflexivity].
    now rewrite (Hidx idx eq_refl).
  - now destruct (indexData st).
Qed.

Lemma framed_sortEpisodes (st : AppState) :
  wellFormed st -> framed st (sortEpisodes st).
Proof.
  intros Hwf. apply framed_other_arrays; try reflexivity; [assumption|].
  apply arrays_sortEpisodes. now destruct Hwf as (_ & _ & Hne & _).
Qed.

Lemma framed_applyFilters (st : AppState) :
  wellFormed st -> framed st (applyFilters st).
Proof.
  intros Hwf. apply framed_other_arrays; try reflexivity; [assumption|].
  apply arrays_applyFilters. now destruct Hwf as (Hall & _).
Qed.

(** Rendering the keyword filters reorders the keywords of the index and
    touches nothing else. *)
Lemma framed_renderKeywordFilters (st : AppState) :
  framed st (fst (renderKeywordFilters st)).
Proof.
  unfold renderKeywordFilters.
  destruct (indexData st) as [idx|] eqn:Hd;
    [|now apply framed_same_store].
  unfold framed, indexEpisodes, indexKeywords. rewrite Hd. cbn.
  repeat split. apply JSArrayFacts.sort_perm.
Qed.

Lemma wellFormed_renderKeywordFilters (st : AppState) :
  wellFormed st -> wellFormed (fst (renderKeywordFilters st)).
Proof.
  intros Hwf. unfold renderKeywordFilters.
  destruct (indexData st) as [idx|] eqn:Hd; [|exact Hwf].
  destruct Hwf as (Hall & Hfil & Hne & Hidx). unfold wellFormed. cbn.
  split; [assumption | split; [assumption | split; [assumption|]]].
  intros idx' [= <-]. cbn. now apply Hidx.
Qed.

Lemma loadEpisodeDetail_store (slug0 : string) (fetched : TextResponse)
    (st : AppState) :
  let st' := fst (loadEpisodeDetail slug0 fetched st) in
  arrays st' = arrays st /\ indexData st' = indexData st /\
  allEpisodes st' = allEpisodes st /\
  filteredEpisodes st' = filteredEpisodes st.
Proof.
  cbv zeta. unfold loadEpisodeDetail.
  destruct (find _ _); [|now repeat split].
  destruct fetched as [|[|] text]; now repeat split.
Qed.

Lemma appStep_framed (st : AppState) (ev : AppEvent) :
  wellFormed st -> wellFormed (appStep st ev) /\ framed st (appStep st ev).
Proof.
  intros Hwf. destruct ev as [keyword checked | value | value | | slug0 fetched |];
    cbn [appStep].
  - split; [now apply wellFormed_applyFilters |].
    now apply (framed_applyFilters
                 {| arrays := arrays st; indexData := indexData st;
                    allEpisodes := allEpisodes st;
                    filteredEpisodes := filteredEpisodes st;
                    selectedKeywords :=
                      if checked then JSSet.add keyword (selectedKeywords st)
                      else JSSet.delete keyword (selectedKeywords st);
                    currentSort := currentSort st;
                    searchQuery := searchQuery st;
                    currentEpisode := currentEpisode st |}).
  - split; [now apply wellFormed_applyFilters |].
    now apply (framed_applyFilters
                 {| arrays := arrays st; indexData := indexData st;
                    allEpisodes := allEpisodes st;
                    filteredEpisodes := filteredEpisodes st;
                    selectedKeywords := selectedKeywords st;
                    currentSort := currentSort st;
                    searchQuery := JSString.toLowerCase (JSString.trim value);
                    currentEpisode := currentEpisode st |}).
  - split; [now apply wellFormed_sortEpisodes |].
    now apply (framed_sortEpisodes
                 {| arrays := arrays st; indexData := indexData st;
                    allEpisodes := allEpisodes st;
                    filteredEpisodes := filteredEpisodes st;
                    selectedKeywords := selectedKeywords st;
                    currentSort := value;
                    searchQuery := searchQuery st;
                    currentEpisode := currentEpisode st |}).
  - split; [now apply wellFormed_renderKeywordFilters
           | apply framed_renderKeywordFilters].
  - destruct (loadEpisodeDetail_store slug0 fetched st)
      as (Harr & Hidx & Hall & Hfil).
    split; [|now apply framed_same_store].
    unfold wellFormed. rewrite Harr, Hidx, Hall, Hfil. exact Hwf.
  - split; [exact Hwf | now apply framed_same_store].
Qed.

Lemma run_framed (events : list AppEvent) (st : AppState) :
  wellFormed st -> wellFormed (run events st) /\ framed st (run events st).
Proof.
  revert st. induction events as [|ev events IH]; intros st Hwf.
  - split; [exact Hwf | now apply framed_same_store].
  - destruct (appStep_framed st ev Hwf) as [Hwf' Hframe].
    destruct (IH _ Hwf') as [Hwf'' Hframe'].
    split; [exact Hwf'' | exact (framed_trans _ _ _ Hframe Hframe')].
Qed.

(** X15. Throughout a session the episodes array of the index document is
    the one that was loaded, element for element; the keywords of the index
    are the loaded ones in some order. *)
Theorem session_index_episodes_unchanged (p : IndexPayload)
    (events : list AppEvent) :
  let st := session (Some p) events in
  indexEpisodes st = Some (payload_episodes p) /\
  allList st = payload_episodes p /\
  exists kws, indexKeywords st = Some kws /\
              Permutation (payload_keywords p) kws.
Proof.
  cbv zeta. unfold session.
  destruct (run_framed (KeywordFiltersRendered :: events)
              (loadIndex (Some p) initial)) as [_ (Hall & Harr & Hie & Hkw)].
  { apply wellFormed_loadIndex, wellFormed_initial. }
  destruct (allList_loadIndex p initial) as (Hl & _ & Hi & Hk).
  split; [congruence | split].
  - unfold allList, readArray in *. now rewrite Hall, Harr.
  - rewrite Hk in Hkw.
    destruct (indexKeywords (run _ _)) as [kws|]; [|contradiction].
    now exists kws.
Qed.
End Steps.

(** C8.  Loading the sample index and rendering the keyword filters, as the
    page does when it starts, leaves the keywords of the index document in
    another order than they were loaded in: [renderKeywordFilters] sorts
    [all_keywords] in place. *)
Theorem renderKeywordFilters_reorders_index :
  indexKeywords Samples.loaded = Some ["hiring"; "growth"; "pricing"] /\
  indexKeywords (fst (renderKeywordFilters Samples.loaded))
  = Some ["growth"; "hiring"; "pricing"] /\
  indexKeywords (@session Samples.byCodeUnits (Some Samples.payload) [])
  <> indexKeywords Samples.loaded.
Proof. vm_compute. repeat split. discriminate. Qed.

End SessionFacts.

(** * Further properties *)

(** ** Trimming and lower-casing *)

Module NormalFacts.
Import JSString JSStringFacts Notions.

(** Facts about one code unit, checked on all 256 of them. *)
Ltac each_code_unit c :=
  destruct c as [[|] [|] [|] [|] [|] [|] [|] [|]]; vm_compute; reflexivity.

Lemma lowerChar_idempotent (c : ascii) : lowerChar (lowerChar c) = lowerChar c.
Proof. each_code_unit c. Qed.

Lemma isWhiteSpace_lowerChar (c : ascii) :
  isWhiteSpace (lowerChar c) = isWhiteSpace c.
Proof. each_code_unit c. Qed.

Lemma toLowerCase_idempotent (s : string) :
  toLowerCase (toLowerCase s) = toLowerCase s.
Proof.
  induction s as [|c s IH]; simpl; [reflexivity|].
  now rewrite lowerChar_idempotent, IH.
Qed.

Lemma toLowerCase_append (a b : string) :
  toLowerCase (a +:+ b) = toLowerCase a +:+ toLowerCase b.
Proof.
  induction a as [|c a IH]; str_simpl; simpl; str_simpl; [reflexivity|].
  now rewrite IH.
Qed.

Lemma trimStart_toLowerCase (s : string) :
  trimStart (toLowerCase s) = toLowerCase (trimStart s).
Proof.
  induction s as [|c s IH]; simpl; [reflexivity|].
  rewrite isWhiteSpace_lowerChar. now destruct (isWhiteSpace c).
Qed.

Lemma trimEnd_toLowerCase (s : string) :
  trimEnd (toLowerCase s) = toLowerCase (trimEnd s).
Proof.
  induction s as [|c s IH]; simpl; [reflexivity|].
  rewrite IH, isWhiteSpace_lowerChar.
  destruct (trimEnd s); simpl; [now destruct (isWhiteSpace c) | reflexivity].
Qed.

Lemma trim_toLowerCase (s : string) :
  trim (toLowerCase s) = toLowerCase (trim s).
Proof. unfold trim. now rewrite trimStart_toLowerCase, trimEnd_toLowerCase. Qed.

Lemma trimStart_clean (s : string) : startsWithWhiteSpace (trimStart s) = false.
Proof.
  induction s as [|c s IH]; simpl; [reflexivity|].
  destruct (isWhiteSpace c) eqn:Hc; [exact IH | simpl; exact Hc].
Qed.

Lemma trimEnd_clean (s : string) : endsWithWhiteSpace (trimEnd s) = false.
Proof.
  induction s as [|c s IH]; simpl; [reflexivity|].
  destruct (trimEnd s) as [|d t] eqn:Ht.
  - destruct (isWhiteSpace c) eqn:Hc; simpl; [reflexivity | exact Hc].
  - exact IH.
Qed.

(** Trimming the end leaves the start as it is. *)
Lemma trimEnd_start (s : string) :
  startsWithWhiteSpace s = false -> startsWithWhiteSpace (trimEnd s) = false.
Proof.
  destruct s as [|c s]; simpl; [reflexivity|]. intros Hc.
  destruct (trimEnd s); [rewrite Hc|]; simpl; exact Hc.
Qed.

Lemma trimStart_id (s : string) :
  startsWithWhiteSpace s = false -> trimStart s = s.
Proof. destruct s as [|c s]; simpl; [reflexivity | now intros ->]. Qed.

Lemma trimEnd_id (s : string) :
  endsWithWhiteSpace s = false -> trimEnd s = s.
Proof.
  induction s as [|c s IH]; [reflexivity|].
  destruct s as [|d s].
  - simpl. now intros ->.
  - intros Hend. change (endsWithWhiteSpace (String d s) = false) in Hend.
    cbn [trimEnd]. cbn [trimEnd] in IH. now rewrite (IH Hend).
Qed.

Lemma trimStart_whiteSpace (ws s : string) :
  whiteSpaceOnly ws = true -> trimStart (ws +:+ s) = trimStart s.
Proof.
  induction ws as [|c ws IH]; str_simpl; [reflexivity|]. simpl.
  intros [Hc Hws]%andb_true_iff. rewrite Hc. now apply IH.
Qed.

(** What [trim] returns neither starts nor ends with white space. *)
Lemma trim_normal (s : string) :
  startsWithWhiteSpace (trim s) = false /\
  endsWithWhiteSpace (trim s) = false /\
  trim (trim s) = trim s.
Proof.
  assert (Hstart : startsWithWhiteSpace (trim s) = false)
    by apply trimEnd_start, trimStart_clean.
  assert (Hend : endsWithWhiteSpace (trim s) = false) by apply trimEnd_clean.
  split; [exact Hstart | split; [exact Hend|]].
  unfold trim at 1. now rewrite (trimStart_id _ Hstart), (trimEnd_id _ Hend).
Qed.

(** X19. The body [parseTranscript] returns, whatever the text, neither
    starts nor ends with white space, and parsing a body that has no
    metadata block of its own gives the body back. *)
Theorem parseTranscript_body_clean (fullText : string) :
  let body := App.content (App.parseTranscript fullText) in
  startsWithWhiteSpace body = false /\
  endsWithWhiteSpace body = false /\
  (~ hasFrontmatter body -> App.content (App.parseTranscript body) = body).
Proof.
  cbv zeta.
  remember (App.content (App.parseTranscript fullText)) as body eqn:Hbody.
  unfold App.parseTranscript in Hbody. cbn [App.content] in Hbody.
  destruct (trim_normal
              match Frontmatter.matchGroup fullText with
              | Some group1 => group1
              | None => fullText
              end) as (Hstart & Hend & Htrim).
  rewrite <- Hbody in Hstart, Hend, Htrim.
  split; [exact Hstart | split; [exact Hend|]].
  intros Hno. apply FrontmatterFacts.matchGroup_None in Hno.
  unfold App.parseTranscript. rewrite Hno. cbn [App.content]. exact Htrim.
Qed.

Lemma parseTranscript_body_clean_witness :
  App.content (App.parseTranscript
                 (App.content (App.parseTranscript Samples.plainTranscript)))
  = App.content (App.parseTranscript Samples.plainTranscript).
Proof.
  apply (parseTranscript_body_clean Samples.plainTranscript).
  apply FrontmatterFacts.matchGroup_None. reflexivity.
Defined.

End NormalFacts.

(** ** More on the filter and sort pipeline *)

Module PipelineExtras.
Import App AppFacts Session SessionFacts Notions.

Lemma filter_idempotent {A : Type} (f : A -> bool) (l : list A) :
  List.filter f (List.filter f l) = List.filter f l.
Proof.
  induction l as [|x l IH]; simpl; [reflexivity|].
  destruct (f x) eqn:Hx; simpl; [rewrite Hx, IH|]; auto.
Qed.

Lemma filter_commute {A : Type} (f g : A -> bool) (l : list A) :
  List.filter f (List.filter g l) = List.filter g (List.filter f l).
Proof.
  induction l as [|x l IH]; simpl; [reflexivity|].
  destruct (f x) eqn:Hf, (g x) eqn:Hg; simpl; rewrite ?Hf, ?Hg, IH; reflexivity.
Qed.

(** X3. Each of the two filter steps, done twice, is the step done once,
    and the two steps give the same list in either order. *)
Theorem filter_steps_commute (selected : JSSet.t) (query : string)
    (eps : list EpisodeRecord) :
  keywordStep selected (keywordStep selected eps) = keywordStep selected eps /\
  searchStep query (searchStep query eps) = searchStep query eps /\
  keywordStep selected (searchStep query eps)
  = searchStep query (keywordStep selected eps).
Proof.
  unfold keywordStep, searchStep.
  destruct (0 <? JSSet.size selected)%nat, (JSString.truthy query);
    repeat split; auto using filter_idempotent, filter_commute.
Qed.

(** Substrings of substrings. *)
Lemma includes_trans (s q q' : string) :
  JSString.includes s q = true -> JSString.includes q q' = true ->
  JSString.includes s q' = true.
Proof.
  rewrite !JSStringFacts.includes_spec.
  intros (a & b & ->) (c & d & ->).
  exists (a +:+ c), (d +:+ b).
  now rewrite !JSStringFacts.append_assoc.
Qed.

Lemma includes_empty (q : string) :
  JSString.includes "" q = true -> q = ""%string.
Proof. destruct q; [reflexivity | discriminate]. Qed.

(** X5. Typing on narrows the result: when the query handled contains
    another query, every record displayed for it is displayed for the
    other one too. *)
Theorem longer_query_narrows `{Collator} (value value' : string)
    (st : AppState) (e : EpisodeRecord) :
  JSString.includes (JSString.toLowerCase (JSString.trim value))
                    (JSString.toLowerCase (JSString.trim value')) = true ->
  In e (displayed (handleSearch value st)) ->
  In e (displayed (handleSearch value' st)).
Proof.
  intros Hsub. unfold handleSearch. rewrite !In_applyFilters. cbn.
  intros (Hall & Hkw & Hq). repeat split; try assumption.
  intros Hq'. unfold matchesSearch in *.
  destruct (JSString.toLowerCase (JSString.trim value)) as [|c q] eqn:Hvalue.
  - apply includes_empty in Hsub. congruence.
  - eapply includes_trans; [apply Hq; discriminate | exact Hsub].
Qed.

Lemma longer_query_narrows_witness :
  In Samples.brian
     (displayed (@handleSearch Samples.byCodeUnits "ches" Samples.loaded)).
Proof.
  apply (@longer_query_narrows Samples.byCodeUnits "Chesky").
  - reflexivity.
  - vm_compute. now left.
Defined.

(** X20. The query [handleSearch] stores is in normal form: lower-cased,
    with no white space at either end; handling it again stores it again. *)
Theorem handleSearch_normalises `{Collator} (value : string) (st st' : AppState) :
  let query := searchQuery (handleSearch value st) in
  JSString.toLowerCase query = query /\
  JSString.trim query = query /\
  startsWithWhiteSpace query = false /\
  endsWithWhiteSpace query = false /\
  searchQuery (handleSearch query st') = query.
Proof.
  change (searchQuery (handleSearch value st))
    with (JSString.toLowerCase (JSString.trim value)).
  cbv zeta.
  change (searchQuery (handleSearch (JSString.toLowerCase (JSString.trim value)) st'))
    with (JSString.toLowerCase
            (JSString.trim (JSString.toLowerCase (JSString.trim value)))).
  assert (Hlower : JSString.toLowerCase (JSString.toLowerCase (JSString.trim value))
                   = JSString.toLowerCase (JSString.trim value))
    by apply NormalFacts.toLowerCase_idempotent.
  destruct (NormalFacts.trim_normal (JSString.toLowerCase value))
    as (Hstart & Hend & Htrim).
  rewrite (NormalFacts.trim_toLowerCase value) in Hstart, Hend, Htrim.
  rewrite Htrim, Hlower. auto.
Qed.

(** X1. After a keyword box has been checked the keyword is selected, every
    displayed record carries it, and nothing is displayed that the filters
    did not let through before. *)
Theorem checked_keyword_on_every_record `{Collator} (k : string)
    (st : AppState) (e : EpisodeRecord) :
  let st' := handleKeywordFilter k true st in
  In k (selectedKeywords st') /\
  (In e (displayed st') -> In k (keywords e) /\ In e (displayed (applyFilters st))).
Proof.
  cbv zeta. split.
  - change (selectedKeywords (handleKeywordFilter k true st))
      with (JSSet.add k (selectedKeywords st)).
    apply JSSetFacts.In_add. now right.
  - unfold handleKeywordFilter. rewrite !In_applyFilters. cbn.
    intros (Hall & Hkw & Hq). split.
    + apply Hkw, JSSetFacts.In_add. now right.
    + repeat split; try assumption.
      intros k' Hk'. apply Hkw, JSSetFacts.In_add. now left.
Qed.

End PipelineExtras.

(** ** Which records a query finds *)

Module SearchFacts.
Import JSString JSStringFacts Notions App.

Lemma includes_append_l (a b q : string) :
  includes a q = true -> includes (a +:+ b) q = true.
Proof.
  rewrite !includes_spec. intros (x & y & ->). exists x, (y +:+ b).
  now rewrite !append_assoc.
Qed.

Lemma includes_append_r (a b q : string) :
  includes b q = true -> includes (a +:+ b) q = true.
Proof.
  rewrite !includes_spec. intros (x & y & ->). exists (a +:+ x), y.
  now rewrite !append_assoc.
Qed.

Lemma includes_nothing (q : string) : q <> ""%string -> includes "" q = false.
Proof. destruct q; [congruence | reflexivity]. Qed.

(** A query without white space that starts before a white-space character
    ends before it. *)
Lemma startsWith_before_space (a b q : string) (c : ascii) :
  isWhiteSpace c = true -> noWhiteSpace q = true ->
  startsWith (a +:+ String c b) q = true -> startsWith a q = true.
Proof.
  intros Hc. revert a. induction q as [|y q IH]; intros a Hq; [reflexivity|].
  simpl in Hq. apply andb_true_iff in Hq as [Hy Hq].
  destruct a as [|x a]; str_simpl; simpl.
  - destruct (Ascii.eqb y c) eqn:Hyc; [|discriminate].
    apply Ascii.eqb_eq in Hyc. subst y. rewrite Hc in Hy. discriminate.
  - destruct (Ascii.eqb y x); [now apply IH | discriminate].
Qed.

Lemma includes_split (a b q : string) (c : ascii) :
  isWhiteSpace c = true -> noWhiteSpace q = true ->
  includes (a +:+ String c b) q = true ->
  includes a q = true \/ includes b q = true.
Proof.
  intros Hc Hq. induction a as [|x a IH]; str_simpl; cbn [includes];
    rewrite !orb_true_iff.
  - intros [Hstart | Hb]; [left | now right].
    left. now apply (startsWith_before_space "" b q c).
  - intros [Hstart | Hrest].
    + left. left. now apply (startsWith_before_space (String x a) b q c).
    + destruct (IH Hrest) as [Ha | Hb]; [left; now right | now right].
Qed.

Section Query.
Variable q : string.
Hypothesis q_not_empty : q <> ""%string.
Hypothesis q_no_space : noWhiteSpace q = true.

Lemma includes_after_spaces (n : nat) (rest : string) :
  includes (spaces n +:+ rest) q = true -> includes rest q = true.
Proof.
  induction n as [|n IH]; simpl; str_simpl; [auto|].
  intros Hin.
  destruct (includes_split "" _ q " "%char eq_refl q_no_space Hin) as [Hq | Hq];
    [|auto].
  now rewrite includes_nothing in Hq.
Qed.

(** A field, then a line break and the indentation of the next line. *)
Lemma includes_line (field rest : string) (n : nat) :
  includes (field +:+ newline +:+ spaces n +:+ rest) q = true ->
  includes field q = true \/ includes rest q = true.
Proof.
  intros Hin.
  destruct (includes_split field _ q (ascii_of_nat 10) eq_refl q_no_space Hin)
    as [Hq | Hq]; [now left | right].
  now apply includes_after_spaces in Hq.
Qed.

Lemma includes_join (parts : list string) :
  includes (join " " parts) q = true ->
  exists part, In part parts /\ includes part q = true.
Proof.
  induction parts as [|p parts IH].
  - change (join " " []) with ""%string. intros Hin.
    now rewrite includes_nothing in Hin.
  - destruct parts as [|p' parts].
    + change (join " " [p]) with p. intros Hin. exists p. split; [now left | assumption].
    + change (join " " (p :: p' :: parts))
        with (p +:+ String " " (join " " (p' :: parts))).
      intros Hin.
      destruct (includes_split p _ q " "%char eq_refl q_no_space Hin)
        as [Hq | Hq].
      * exists p. split; [now left | assumption].
      * destruct (IH Hq) as (part & Hpart & Hq'). exists part.
        split; [now right | assumption].
Qed.
End Query.

Lemma includes_join_part (q sep : string) (parts : list string) (part : string) :
  In part parts -> includes part q = true -> includes (join sep parts) q = true.
Proof.
  intros Hin Hq. induction parts as [|p parts IH]; [destruct Hin|].
  destruct parts as [|p' parts].
  - destruct Hin as [-> | []]. exact Hq.
  - change (join sep (p :: p' :: parts))
      with (p +:+ sep +:+ join sep (p' :: parts)).
    destruct Hin as [-> | Hin].
    + now apply includes_append_l.
    + now apply includes_append_r, includes_append_r, IH.
Qed.

Lemma toLowerCase_spaces (n : nat) : toLowerCase (spaces n) = spaces n.
Proof. induction n as [|n IH]; simpl; [reflexivity | now rewrite IH]. Qed.

Lemma toLowerCase_join (parts : list string) :
  toLowerCase (join " " parts) = join " " (map toLowerCase parts).
Proof.
  induction parts as [|p parts IH]; [reflexivity|].
  destruct parts as [|p' parts]; [reflexivity|].
  change (join " " (p :: p' :: parts))
    with (p +:+ " " +:+ join " " (p' :: parts)).
  rewrite !NormalFacts.toLowerCase_append, IH. reflexivity.
Qed.

(** The search text: the lower-cased fields on their lines. *)
Lemma searchText_lines (e : EpisodeRecord) :
  searchText e =
  newline +:+ spaces 16 +:+ toLowerCase (guest e) +:+
  newline +:+ spaces 16 +:+ toLowerCase (title e) +:+
  newline +:+ spaces 16 +:+ toLowerCase (description e) +:+
  newline +:+ spaces 16 +:+ join " " (map toLowerCase (keywords e)) +:+
  newline +:+ spaces 12.
Proof.
  unfold searchText, searchTemplate.
  rewrite !NormalFacts.toLowerCase_append, !toLowerCase_spaces, toLowerCase_join.
  reflexivity.
Qed.

(** X6. A query without white space finds a record exactly when the
    lower-cased guest, title or description, or one lower-cased keyword,
    contains it. *)
Theorem query_without_space_matches_a_field (q : string) (e : EpisodeRecord) :
  q <> ""%string -> noWhiteSpace q = true ->
  (matchesSearch q e = true <->
   includes (toLowerCase (guest e)) q = true \/
   includes (toLowerCase (title e)) q = true \/
   includes (toLowerCase (description e)) q = true \/
   exists k, In k (keywords e) /\ includes (toLowerCase k) q = true).
Proof.
  intros Hq Hspace. unfold matchesSearch. rewrite searchText_lines. split.
  - intros Hin.
    destruct (includes_line q Hq Hspace "" _ _ Hin) as [H0 | H1];
      [now rewrite includes_nothing in H0|].
    destruct (includes_line q Hq Hspace _ _ _ H1) as [Hg | H2]; [now left|].
    destruct (includes_line q Hq Hspace _ _ _ H2) as [Ht | H3];
      [right; now left|].
    destruct (includes_line q Hq Hspace _ _ _ H3) as [Hd | H4];
      [right; right; now left|].
    right. right. right.
    replace (spaces 12) with (spaces 12 +:+ "") in H4 by apply append_nil_r.
    destruct (includes_line q Hq Hspace _ _ _ H4) as [Hk | H5];
      [|now rewrite includes_nothing in H5].
    destruct (includes_join q Hq Hspace _ Hk) as (part & Hpart & Hin').
    apply in_map_iff in Hpart as (k & <- & Hk'). now exists k.
  - intros Hfield.
    do 2 apply includes_append_r.
    destruct Hfield as [Hin | Hfield]; [now apply includes_append_l|].
    do 3 apply includes_append_r.
    destruct Hfield as [Hin | Hfield]; [now apply includes_append_l|].
    do 3 apply includes_append_r.
    destruct Hfield as [Hin | (k & Hk & Hin)]; [now apply includes_append_l|].
    do 3 apply includes_append_r. apply includes_append_l.
    apply (includes_join_part q " " _ (toLowerCase k)); [|assumption].
    now apply in_map.
Qed.

Lemma query_without_space_matches_a_field_witness :
  matchesSearch "chesky" Samples.brian = true.
Proof.
  apply query_without_space_matches_a_field.
  - discriminate.
  - reflexivity.
  - left. reflexivity.
Defined.

End SearchFacts.

(** ** The claim on the search filter *)

Module SearchClaims.
Import JSString App AppFacts Notions SearchFacts.




End SearchClaims.

(** ** The displayed list across events *)

Module DisplayFacts.
Import App AppFacts Session SessionFacts Notions.

Lemma sort_of_sorted {A : Type} (cmp : A -> A -> Z) (arr : list A) :
  Sorted (JSArray.inOrder cmp) arr -> JSArray.sort cmp arr = arr.
Proof.
  induction 1 as [|x arr Hs IH Hhd]; [reflexivity|].
  cbn [JSArray.sort]. rewrite IH.
  destruct Hhd as [|y arr' Hxy]; [reflexivity|].
  cbn [JSArray.insertSorted]. unfold JSArray.inOrder in Hxy.
  apply Z.leb_le in Hxy. now rewrite Hxy.
Qed.

Lemma sort_idempotent {A : Type} (cmp : A -> A -> Z) (arr : list A) :
  (forall a b, (0 < cmp a b)%Z -> (cmp b a <= 0)%Z) ->
  JSArray.sort cmp (JSArray.sort cmp arr) = JSArray.sort cmp arr.
Proof. intros Htotal. now apply sort_of_sorted, JSArrayFacts.sort_sorted. Qed.

Lemma filter_submseteq {A : Type} (f : A -> bool) (l : list A) :
  List.filter f l ⊆+ l.
Proof.
  induction l as [|x l IH]; simpl; [constructor|].
  destruct (f x); [now apply submseteq_skip | now apply submseteq_cons].
Qed.

Lemma keywordStep_submseteq (selected : JSSet.t) (eps : list EpisodeRecord) :
  keywordStep selected eps ⊆+ eps.
Proof.
  unfold keywordStep. destruct (_ <? _)%nat; [apply filter_submseteq | reflexivity].
Qed.

Lemma searchStep_submseteq (query : string) (eps : list EpisodeRecord) :
  searchStep query eps ⊆+ eps.
Proof.
  unfold searchStep. destruct (JSString.truthy _);
    [apply filter_submseteq | reflexivity].
Qed.

Section Steps.
Context `{Collator}.

Lemma sortedBy_idempotent (mode : string) (eps : list EpisodeRecord) :
  (forall a b, (0 < localeCompare a b)%Z -> (localeCompare b a <= 0)%Z) ->
  sortedBy mode (sortedBy mode eps) = sortedBy mode eps.
Proof.
  intros Htotal. unfold sortedBy.
  destruct (String.eqb mode "views");
    [apply sort_idempotent; intros a b; lia|].
  destruct (String.eqb mode "duration");
    [apply sort_idempotent; intros a b; lia|].
  destruct (String.eqb mode "title"); [|reflexivity].
  apply sort_idempotent. intros a b. apply Htotal.
Qed.

(** The list behind [allEpisodes] is the same after every event. *)
Lemma allList_framed (st st' : AppState) : framed st st' -> allList st' = allList st.
Proof.
  intros (Hall & Harr & _). unfold allList, readArray. now rewrite Hall, Harr.
Qed.

Lemma allList_applyFilters (st : AppState) :
  wellFormed st -> allList (applyFilters st) = allList st.
Proof. intros Hwf. now apply allList_framed, framed_applyFilters. Qed.

Lemma displayed_renderKeywordFilters (st : AppState) :
  displayed (fst (renderKeywordFilters st)) = displayed st.
Proof. unfold renderKeywordFilters. now destruct (indexData st). Qed.

Lemma displayed_loadEpisodeDetail (slug0 : string) (fetched : TextResponse)
    (st : AppState) :
  displayed (fst (loadEpisodeDetail slug0 fetched st)) = displayed st.
Proof.
  destruct (loadEpisodeDetail_store slug0 fetched st) as (Harr & _ & _ & Hfil).
  unfold displayed, readArray. now rewrite Harr, Hfil.
Qed.

Lemma displayed_submseteq_applyFilters (st : AppState) :
  wellFormed st -> displayed (applyFilters st) ⊆+ allList (applyFilters st).
Proof.
  intros Hwf. rewrite allList_applyFilters by exact Hwf.
  rewrite displayed_applyFilters, <- sortedBy_perm.
  etransitivity; [apply searchStep_submseteq | apply keywordStep_submseteq].
Qed.

Lemma appStep_displayed (st : AppState) (ev : AppEvent) :
  wellFormed st -> displayed st ⊆+ allList st ->
  displayed (appStep st ev) ⊆+ allList (appStep st ev).
Proof.
  intros Hwf Hsub.
  destruct ev as [keyword checked | value | value | | slug0 fetched |].
  - now apply displayed_submseteq_applyFilters.
  - now apply displayed_submseteq_applyFilters.
  - destruct (appStep_framed st (SortChosen value) Hwf) as [_ Hframe].
    rewrite (allList_framed _ _ Hframe). cbn [appStep].
    unfold handleSortChange. rewrite displayed_sortEpisodes.
    now rewrite <- sortedBy_perm.
  - destruct (appStep_framed st KeywordFiltersRendered Hwf) as [_ Hframe].
    rewrite (allList_framed _ _ Hframe). cbn [appStep].
    now rewrite displayed_renderKeywordFilters.
  - destruct (appStep_framed st (DetailOpened slug0 fetched) Hwf) as [_ Hframe].
    rewrite (allList_framed _ _ Hframe). cbn [appStep].
    now rewrite displayed_loadEpisodeDetail.
  - exact Hsub.
Qed.

Lemma run_displayed (events : list AppEvent) (st : AppState) :
  wellFormed st -> displayed st ⊆+ allList st ->
  displayed (run events st) ⊆+ allList (run events st).
Proof.
  revert st. induction events as [|ev events IH]; intros st Hwf Hsub;
    [exact Hsub|].
  apply IH; [now apply appStep_framed | now apply appStep_displayed].
Qed.

(** X10. In every state of a session, whether the index loaded or not, the
    displayed records are records of the index, none more often than the
    index holds it; so the count shown, and the count the chat context
    reports, never exceeds the total. *)
Theorem displayed_within_index (fetched : option IndexPayload)
    (events : list AppEvent) :
  let st := session fetched events in
  displayed st ⊆+ allList st /\
  (forall e, In e (displayed st) -> In e (allList st)) /\
  length (displayed st) <= length (allList st) /\
  Chat.filteredEpisodes (Chat.getContextForChat st)
  <= Chat.totalEpisodes (Chat.getContextForChat st).
Proof.
  cbv zeta.
  assert (Hsub : displayed (session fetched events)
                 ⊆+ allList (session fetched events)).
  { unfold session. apply run_displayed.
    - apply wellFormed_loadIndex, wellFormed_initial.
    - destruct fetched as [p|].
      + destruct (allList_loadIndex p initial) as (-> & -> & _). reflexivity.
      + reflexivity. }
  split; [exact Hsub | split; [|split]].
  - intros e He. apply list_elem_of_In. apply list_elem_of_In in He.
    eapply elem_of_submseteq; eassumption.
  - now apply submseteq_length.
  - cbn. now apply submseteq_length.
Qed.

Lemma displayed_handleKeywordFilter (k : string) (checked : bool)
    (st : AppState) :
  displayed (handleKeywordFilter k checked st) =
  sortedBy (currentSort st)
    (searchStep (searchQuery st)
       (keywordStep (if checked then JSSet.add k (selectedKeywords st)
                     else JSSet.delete k (selectedKeywords st))
                    (allList st))).
Proof. unfold handleKeywordFilter. now rewrite displayed_applyFilters. Qed.

Lemma allList_handleKeywordFilter (k : string) (checked : bool)
    (st : AppState) :
  wellFormed st -> allList (handleKeywordFilter k checked st) = allList st.
Proof.
  intros Hwf.
  exact (allList_framed _ _
           (proj2 (appStep_framed st (KeywordToggled k checked) Hwf))).
Qed.

(** X4. Applying the filters again, with nothing changed in between,
    displays the same list. *)
Theorem applyFilters_idempotent (st : AppState) :
  wellFormed st ->
  displayed (applyFilters (applyFilters st)) = displayed (applyFilters st).
Proof.
  intros Hwf. rewrite (displayed_applyFilters (applyFilters st)).
  rewrite allList_applyFilters by exact Hwf.
  now rewrite displayed_applyFilters.
Qed.

(** X2. Checking a keyword that was not selected and unchecking it again
    leaves the selection as it was, and displays what the filters displayed
    before. *)
Theorem check_uncheck_restores (k : string) (st : AppState) :
  wellFormed st -> ~ In k (selectedKeywords st) ->
  let st' := handleKeywordFilter k false (handleKeywordFilter k true st) in
  selectedKeywords st' = selectedKeywords st /\
  displayed st' = displayed (applyFilters st).
Proof.
  intros Hwf Hk. cbv zeta.
  assert (Hsel : JSSet.delete k (JSSet.add k (selectedKeywords st))
                 = selectedKeywords st).
  { unfold JSSet.add, JSSet.has.
    destruct (existsb _ _) eqn:Hhas.
    - apply existsb_exists in Hhas as (x & Hx & Heq).
      apply String.eqb_eq in Heq. now subst.
    - unfold JSSet.delete. rewrite List.filter_app. cbn.
      rewrite String.eqb_refl. cbn. rewrite app_nil_r.
      apply forallb_filter_id, forallb_forall. intros x Hx.
      apply negb_true_iff, String.eqb_neq. intros ->. contradiction. }
  split; [exact Hsel|].
  rewrite displayed_handleKeywordFilter.
  rewrite (allList_handleKeywordFilter k true st Hwf).
  change (selectedKeywords (handleKeywordFilter k true st))
    with (JSSet.add k (selectedKeywords st)).
  rewrite Hsel. now rewrite displayed_applyFilters.
Qed.

(** X8. Choosing the sort mode that is already in force leaves the
    displayed list as it is: sorting a sorted list moves nothing. *)
Theorem handleSortChange_idempotent (mode : string) (st : AppState) :
  (forall a b, (0 < localeCompare a b)%Z -> (localeCompare b a <= 0)%Z) ->
  displayed (handleSortChange mode (handleSortChange mode st))
  = displayed (handleSortChange mode st).
Proof.
  intros Htotal. unfold handleSortChange at 1. rewrite displayed_sortEpisodes.
  cbn [currentSort]. change (displayed _) with (displayed (handleSortChange mode st)).
  unfold handleSortChange. rewrite displayed_sortEpisodes. cbn [currentSort].
  now apply sortedBy_idempotent.
Qed.

(** X7. Sorting keeps ties in their order: the records with a given number
    of views (duration, guest) stand after the sort as they stood before. *)
Theorem sortEpisodes_keeps_ties (st : AppState) :
  (forall a b, (0 < localeCompare a b)%Z -> (localeCompare b a <= 0)%Z) ->
  (currentSort st = "views"%string -> forall views,
     List.filter (fun e => (view_count e =? views)%Z) (displayed (sortEpisodes st))
     = List.filter (fun e => (view_count e =? views)%Z) (displayed st)) /\
  (currentSort st = "duration"%string -> forall seconds,
     List.filter (fun e => (duration_seconds e =? seconds)%Z)
                 (displayed (sortEpisodes st))
     = List.filter (fun e => (duration_seconds e =? seconds)%Z) (displayed st)) /\
  (currentSort st = "title"%string -> forall name,
     List.filter (fun e => String.eqb (guest e) name) (displayed (sortEpisodes st))
     = List.filter (fun e => String.eqb (guest e) name) (displayed st)).
Proof.
  intros Htotal. rewrite displayed_sortEpisodes.
  split; [|split]; intros -> key; unfold sortedBy;
    cbn [String.eqb Ascii.eqb Bool.eqb]; apply JSArrayFacts.sort_stable.
  - intros a b Ha%Z.eqb_eq Hb%Z.eqb_eq. lia.
  - intros a b Ha%Z.eqb_eq Hb%Z.eqb_eq. lia.
  - intros a b Ha%String.eqb_eq Hb%String.eqb_eq. rewrite Ha, Hb.
    destruct (Z_lt_le_dec 0 (localeCompare key key)) as [Hpos | Hle];
      [now apply Htotal | exact Hle].
Qed.

(** X9. After the filters have been applied the displayed list is in the
    order of the sort mode in force. *)
Theorem applyFilters_in_order (st : AppState) :
  (forall a b, (0 < localeCompare a b)%Z -> (localeCompare b a <= 0)%Z) ->
  let out := displayed (applyFilters st) in
  (currentSort st = "views"%string ->
     Sorted (fun a b => (view_count a >= view_count b)%Z) out) /\
  (currentSort st = "duration"%string ->
     Sorted (fun a b => (duration_seconds a >= duration_seconds b)%Z) out) /\
  (currentSort st = "title"%string ->
     Sorted (fun a b => (localeCompare (guest a) (guest b) <= 0)%Z) out).
Proof.
  intros Htotal. cbv zeta. rewrite displayed_applyFilters.
  split; [|split]; intros ->; unfold sortedBy; cbn [String.eqb Ascii.eqb Bool.eqb].
  - eapply Sorted_weaken; [|apply JSArrayFacts.sort_sorted].
    + unfold JSArray.inOrder. intros a b. lia.
    + intros a b. lia.
  - eapply Sorted_weaken; [|apply JSArrayFacts.sort_sorted].
    + unfold JSArray.inOrder. intros a b. lia.
    + intros a b. lia.
  - apply (JSArrayFacts.sort_sorted
             (fun a b => localeCompare (guest a) (guest b))).
    intros a b. apply Htotal.
Qed.

(** X11. With no keyword selected and no query, applying the filters
    displays every episode of the index, and the stats line says so. *)
Theorem no_filter_shows_all (st : AppState) :
  wellFormed st ->
  selectedKeywords st = [] -> searchQuery st = ""%string ->
  Permutation (allList st) (displayed (applyFilters st)) /\
  updateSearchStats (applyFilters st)
  = "Showing all " +:+ pretty (length (allList st)) +:+ " episodes".
Proof.
  intros Hwf Hsel Hq.
  assert (Hperm : Permutation (allList st) (displayed (applyFilters st))).
  { rewrite displayed_applyFilters, Hsel, Hq. apply sortedBy_perm. }
  split; [exact Hperm|].
  unfold updateSearchStats. rewrite (allList_applyFilters _ Hwf).
  rewrite <- (Permutation_length Hperm), Nat.eqb_refl. reflexivity.
Qed.

End Steps.

Lemma wellFormed_loaded : wellFormed Samples.loaded.
Proof. apply wellFormed_loadIndex, wellFormed_initial. Qed.

Lemma applyFilters_idempotent_witness :
  displayed (@applyFilters Samples.byCodeUnits
               (@applyFilters Samples.byCodeUnits Samples.loaded))
  = displayed (@applyFilters Samples.byCodeUnits Samples.loaded).
Proof. apply applyFilters_idempotent, wellFormed_loaded. Defined.

Lemma check_uncheck_restores_witness :
  selectedKeywords
    (@handleKeywordFilter Samples.byCodeUnits "hiring" false
       (@handleKeywordFilter Samples.byCodeUnits "hiring" true Samples.loaded))
  = [].
Proof.
  refine (proj1 (@check_uncheck_restores Samples.byCodeUnits "hiring"
                   Samples.loaded wellFormed_loaded _)).
  intros [].
Defined.

Lemma handleSortChange_idempotent_witness :
  displayed (@handleSortChange Samples.byCodeUnits "title"
               (@handleSortChange Samples.byCodeUnits "title" Samples.loaded))
  = displayed (@handleSortChange Samples.byCodeUnits "title" Samples.loaded).
Proof.
  apply handleSortChange_idempotent, PipelineClaims.byCodeUnits_total.
Defined.

Lemma sortEpisodes_keeps_ties_witness :
  List.filter (fun e => (view_count e =? 10)%Z)
              (displayed (@sortEpisodes Samples.byCodeUnits Samples.loaded))
  = List.filter (fun e => (view_count e =? 10)%Z) (displayed Samples.loaded).
Proof.
  exact (proj1 (@sortEpisodes_keeps_ties Samples.byCodeUnits Samples.loaded
                  PipelineClaims.byCodeUnits_total) eq_refl 10%Z).
Defined.

Lemma applyFilters_in_order_witness :
  Sorted (fun a b => (view_count a >= view_count b)%Z)
         (displayed (@applyFilters Samples.byCodeUnits Samples.loaded)).
Proof.
  exact (proj1 (@applyFilters_in_order Samples.byCodeUnits Samples.loaded
                  PipelineClaims.byCodeUnits_total) eq_refl).
Defined.

Lemma no_filter_shows_all_witness :
  updateSearchStats (@applyFilters Samples.byCodeUnits Samples.loaded)
  = "Showing all 3 episodes".
Proof.
  exact (proj2 (@no_filter_shows_all Samples.byCodeUnits Samples.loaded
                  wellFormed_loaded eq_refl eq_refl)).
Defined.

End DisplayFacts.

(** ** The keyword filters *)

Module KeywordFacts.
Import App AppFacts Session SessionFacts Notions.

Lemma countOf_countKeyword (counts : gmap string Z) (keyword k : string) :
  countOf (countKeyword counts keyword) k =
  (countOf counts k + if String.string_dec keyword k then 1 else 0)%Z.
Proof.
  unfold countOf, countKeyword.
  destruct (String.string_dec keyword k) as [-> | Hne].
  - now rewrite lookup_insert_eq.
  - rewrite lookup_insert_ne by exact Hne. simpl. lia.
Qed.

Lemma countOf_foldl (counts : gmap string Z) (kws : list string) (k : string) :
  countOf (foldl countKeyword counts kws) k =
  (countOf counts k + Z.of_nat (count_occ String.string_dec kws k))%Z.
Proof.
  revert counts. induction kws as [|keyword kws IH]; intros counts; simpl.
  - lia.
  - rewrite IH, countOf_countKeyword.
    destruct (String.string_dec keyword k); lia.
Qed.

Lemma keywordCounts_concat (eps : list EpisodeRecord) (counts : gmap string Z) :
  foldl (fun counts episode => foldl countKeyword counts (keywords episode))
        counts eps
  = foldl countKeyword counts (concat (map keywords eps)).
Proof.
  revert counts. induction eps as [|e eps IH]; intros counts; simpl;
    [reflexivity|].
  now rewrite IH, foldl_app.
Qed.

Lemma countOf_keywordCounts (eps : list EpisodeRecord) (k : string) :
  countOf (keywordCounts eps) k = Z.of_nat (occurrences k eps).
Proof.
  unfold keywordCounts, occurrences.
  rewrite keywordCounts_concat, countOf_foldl. unfold countOf.
  rewrite lookup_empty. simpl. lia.
Qed.

(** X12. For a keyword that names no property of [Object.prototype], the
    count kept is the number of times the keyword occurs in the keyword
    lists of the episodes; it is zero exactly when no episode carries the
    keyword. *)
Theorem keywordCounts_occurrences (eps : list EpisodeRecord) (k : string) :
  plainKey k ->
  countOf (keywordCounts eps) k = Z.of_nat (occurrences k eps) /\
  ((forall e, In e eps -> ~ In k (keywords e)) <->
   countOf (keywordCounts eps) k = 0%Z).
Proof.
  intros _.
  split; [apply countOf_keywordCounts|].
  rewrite countOf_keywordCounts. unfold occurrences.
  assert (Hin : In k (concat (map keywords eps)) <->
                exists e, In e eps /\ In k (keywords e)).
  { rewrite in_concat. split.
    - intros (kws & Hkws & Hk). apply in_map_iff in Hkws as (e & <- & He).
      now exists e.
    - intros (e & He & Hk). exists (keywords e). split; [now apply in_map|exact Hk]. }
  split.
  - intros Hnone.
    rewrite (proj1 (count_occ_not_In String.string_dec _ k)); [reflexivity|].
    intros (e & He & Hk)%Hin. exact (Hnone e He Hk).
  - intros Hzero e He Hk.
    assert (Hnot : ~ In k (concat (map keywords eps))).
    { apply (count_occ_not_In String.string_dec). lia. }
    apply Hnot, Hin. now exists e.
Qed.

Lemma keywordCounts_occurrences_witness :
  countOf (keywordCounts [Samples.ann; Samples.brian; Samples.cy]) "growth" = 2%Z.
Proof.
  refine (eq_trans
            (proj1 (keywordCounts_occurrences
                      [Samples.ann; Samples.brian; Samples.cy] "growth" _))
            eq_refl).
  reflexivity.
Defined.

Lemma Sorted_map {A B : Type} (R : A -> A -> Prop) (R' : B -> B -> Prop)
    (g : A -> B) (l : list A) :
  (forall a b, R a b -> R' (g a) (g b)) -> Sorted R l -> Sorted R' (map g l).
Proof.
  intros Himpl. induction 1 as [|x l Hs IH Hhd]; simpl; constructor;
    [assumption|].
  destruct Hhd; simpl; constructor. now apply Himpl.
Qed.

(** X13. With an index whose keywords name no property of
    [Object.prototype], the checkbox labels are the keywords of the index,
    each once for each time the index lists it, each with the number of its
    occurrences in the episodes, and no label has a smaller count than the
    next.  Without an index no label is rendered. *)
Theorem renderKeywordFilters_labels (st : AppState) (idx : IndexDocument) :
  indexData st = Some idx ->
  Forall plainKey (all_keywords idx) ->
  let labels := snd (renderKeywordFilters st) in
  Permutation (all_keywords idx) (map fst labels) /\
  Sorted (fun a b => (snd a >= snd b)%Z) labels /\
  (forall k n, In (k, n) labels -> n = Z.of_nat (occurrences k (allList st))) /\
  (forall st0, indexData st0 = None ->
     snd (renderKeywordFilters st0) = [] /\ fst (renderKeywordFilters st0) = st0).
Proof.
  intros Hidx _. cbv zeta. unfold renderKeywordFilters. rewrite Hidx.
  cbn [snd]. split; [|split; [|split]].
  - rewrite map_map. cbn [fst]. rewrite map_id. apply JSArrayFacts.sort_perm.
  - eapply Sorted_map; [|apply JSArrayFacts.sort_sorted].
    + unfold JSArray.inOrder. cbn [snd]. intros a b. lia.
    + intros a b. lia.
  - intros k n Hin. apply in_map_iff in Hin as (k' & [= <- <-] & _).
    apply countOf_keywordCounts.
  - intros st0 ->. now split.
Qed.

Lemma renderKeywordFilters_labels_witness :
  Sorted (fun a b => (snd a >= snd b)%Z)
         (snd (renderKeywordFilters Samples.loaded)).
Proof.
  refine (proj1 (proj2 (renderKeywordFilters_labels Samples.loaded _
                          eq_refl _))).
  repeat constructor.
Defined.

Lemma allList_renderKeywordFilters (st : AppState) :
  allList (fst (renderKeywordFilters st)) = allList st.
Proof. unfold renderKeywordFilters. now destruct (indexData st). Qed.

(** X14. With an index whose keywords name no property of
    [Object.prototype], rendering the keyword filters a second time renders
    the same labels and leaves the state as the first rendering left it:
    the keywords of the index are reordered once. *)
Theorem renderKeywordFilters_idempotent (st : AppState) :
  (forall idx, indexData st = Some idx -> Forall plainKey (all_keywords idx)) ->
  let st' := fst (renderKeywordFilters st) in
  renderKeywordFilters st' = (st', snd (renderKeywordFilters st)).
Proof.
  intros _. cbv zeta.
  pose proof (allList_renderKeywordFilters st) as Hall.
  unfold renderKeywordFilters in *.
  destruct (indexData st) as [idx|] eqn:Hidx; cbn [fst snd] in *.
  - cbn [indexData]. rewrite Hall. cbn [all_keywords total_episodes episodes].
    rewrite DisplayFacts.sort_idempotent by (intros a b; lia).
    reflexivity.
  - now rewrite Hidx.
Qed.

Lemma renderKeywordFilters_idempotent_witness :
  snd (renderKeywordFilters (fst (renderKeywordFilters Samples.loaded)))
  = snd (renderKeywordFilters Samples.loaded).
Proof.
  rewrite (renderKeywordFilters_idempotent Samples.loaded); [reflexivity|].
  intros idx [= <-]. repeat constructor.
Defined.

End KeywordFacts.

(** ** Loading the index and opening an episode *)

Module LoaderFacts.
Import App AppFacts Session SessionFacts Notions JSStringFacts.

(** X21. A load that succeeds displays the episodes in the order of the
    index, whatever the sort mode, and keeps selection, query and sort mode;
    the displayed array is a copy, so that sorting it afterwards leaves the
    list of all episodes in the order of the index. *)
Theorem loadIndex_index_order `{Collator} (p : IndexPayload) (st : AppState) :
  let st' := loadIndex (Some p) st in
  displayed st' = payload_episodes p /\
  allList st' = payload_episodes p /\
  allList (sortEpisodes st') = payload_episodes p /\
  displayed (sortEpisodes st') = sortedBy (currentSort st) (payload_episodes p) /\
  selectedKeywords st' = selectedKeywords st /\
  searchQuery st' = searchQuery st /\
  currentSort st' = currentSort st.
Proof.
  cbv zeta. destruct (allList_loadIndex p st) as (Hall & Hshown & _).
  split; [exact Hshown | split; [exact Hall | split; [|split; [|now repeat split]]]].
  - rewrite <- Hall. unfold allList, readArray.
    change (allEpisodes (sortEpisodes (loadIndex (Some p) st)))
      with (allEpisodes (loadIndex (Some p) st)).
    rewrite arrays_sortEpisodes; [reflexivity|].
    cbn. set (heap1 := <[newArray st := payload_episodes p]> (arrays st)).
    intros Heq. apply (is_fresh (dom heap1)). rewrite <- Heq.
    apply elem_of_dom. unfold heap1. rewrite lookup_insert_eq. eauto.
  - rewrite displayed_sortEpisodes, Hshown. reflexivity.
Qed.

(** X16. Opening an episode fails, with an alert and without any change of
    state, when no episode has the slug, when the fetch is rejected and
    when the response is not ok. *)
Theorem loadEpisodeDetail_failure (slug0 : string) (fetched : TextResponse)
    (st : AppState) :
  (forall e, In e (allList st) -> slug e <> slug0) \/
  fetched = TextRejected \/
  (exists text, fetched = TextStatus false text) ->
  loadEpisodeDetail slug0 fetched st = (st, Some "Failed to load episode transcript"%string).
Proof.
  intros Hfail. unfold loadEpisodeDetail.
  destruct (find _ _) as [e|] eqn:Hfind; [|reflexivity].
  destruct Hfail as [Hnone | [-> | [text ->]]]; try reflexivity.
  apply find_some in Hfind as [He Hslug]. apply String.eqb_eq in Hslug.
  now apply Hnone in He.
Qed.

Lemma loadEpisodeDetail_failure_witness :
  loadEpisodeDetail "dee" (TextStatus true "Hello.") Samples.loaded
  = (Samples.loaded, Some "Failed to load episode transcript"%string).
Proof.
  apply loadEpisodeDetail_failure. left.
  intros e [<- | [<- | [<- | []]]]; discriminate.
Defined.

(** X17. When an episode has the slug and the transcript arrives, the
    detail view holds the first such episode of the index with the body
    parsed from the transcript, nothing is alerted and nothing else
    changes: closing the view gives back the state before, if no view was
    open then. *)
Theorem loadEpisodeDetail_success (slug0 text : string) (st : AppState) :
  (exists e, In e (allList st) /\ slug e = slug0) ->
  let result := loadEpisodeDetail slug0 (TextStatus true text) st in
  snd result = None /\
  (exists before e after,
     allList st = before ++ e :: after /\
     slug e = slug0 /\
     (forall e', In e' before -> slug e' <> slug0) /\
     currentEpisode (fst result)
     = Some {| shown := e;
               fullTranscript := content (parseTranscript text) |}) /\
  displayed (fst result) = displayed st /\
  closeDetailView (fst result) = closeDetailView st /\
  (currentEpisode st = None -> closeDetailView (fst result) = st).
Proof.
  intros (e0 & He0 & Hslug0). cbv zeta. unfold loadEpisodeDetail.
  destruct (find _ _) as [e|] eqn:Hfind.
  - cbn [fst snd]. split; [reflexivity | split; [|split; [|split]]].
    + clear e0 He0 Hslug0. revert Hfind.
      induction (allList st) as [|x eps IH]; [discriminate|].
      cbn [find]. destruct (String.eqb (slug x) slug0) eqn:Hx.
      * intros [= ->]. apply String.eqb_eq in Hx.
        exists [], e, eps. repeat split; [assumption | intros e' []].
      * intros Hfind. destruct (IH Hfind) as (before & e1 & after & -> & Hs & Hb & Hcur).
        exists (x :: before), e1, after. repeat split; try assumption.
        intros e' [<- | He']; [now apply String.eqb_neq | now apply Hb].
    + reflexivity.
    + reflexivity.
    + intros Hnone. unfold closeDetailView. cbn. destruct st. cbn in *.
      now subst.
  - exfalso. apply (find_none _ _ Hfind) in He0.
    apply String.eqb_neq in He0. contradiction.
Qed.

Lemma loadEpisodeDetail_success_witness :
  snd (loadEpisodeDetail "cy" (TextStatus true Samples.plainTranscript)
         Samples.loaded) = None.
Proof.
  apply loadEpisodeDetail_success.
  exists Samples.cy. split; [vm_compute; auto | reflexivity].
Defined.

(** X18. For a transcript that opens with a metadata block, and in which a
    line starts with three dashes nowhere but at the end of that block, the
    body is the text after the block, trimmed. *)
Theorem parseTranscript_with_frontmatter (ws1 meta ws2 body : string) :
  let closing := JSString.newline +:+ "---" in
  let opening := "---" +:+ ws1 +:+ JSString.newline +:+ meta in
  let fullText := opening +:+ closing +:+ ws2 +:+ JSString.newline +:+ body in
  whiteSpaceOnly ws1 = true -> whiteSpaceOnly ws2 = true ->
  (forall before after,
     fullText = before +:+ closing +:+ after -> before = opening) ->
  content (parseTranscript fullText) = JSString.trim body.
Proof.
  intros closing opening fullText Hws1 Hws2 Honce.
  assert (Hhas : hasFrontmatter fullText).
  { exists ws1, meta, ws2, body. repeat split; try assumption.
    unfold fullText, opening. now rewrite !append_assoc. }
  unfold parseTranscript. cbn [content].
  destruct (Frontmatter.matchGroup fullText) as [group1|] eqn:Hmatch;
    [|now apply FrontmatterFacts.matchGroup_None in Hmatch].
  apply FrontmatterFacts.matchGroup_Some in Hmatch
    as (ws1' & meta' & ws2' & Hws1' & Hws2' & Htext).
  assert (Hsplit : fullText =
            ("---" +:+ ws1' +:+ JSString.newline +:+ meta') +:+ closing +:+
            (ws2' +:+ JSString.newline +:+ group1)).
  { rewrite Htext. now rewrite !append_assoc. }
  pose proof (Honce _ _ Hsplit) as Hopening.
  rewrite Hopening in Hsplit. unfold fullText in Hsplit.
  apply (inj (String.append opening)) in Hsplit.
  apply (inj (String.append closing)) in Hsplit.
  assert (Hstart : JSString.trimStart group1 = JSString.trimStart body).
  { rewrite <- (NormalFacts.trimStart_whiteSpace (ws2' +:+ JSString.newline) group1).
    - rewrite <- (NormalFacts.trimStart_whiteSpace (ws2 +:+ JSString.newline) body).
      + now rewrite !append_assoc, Hsplit.
      + clear -Hws2. induction ws2 as [|c ws IH]; str_simpl; [reflexivity|].
        simpl in *. apply andb_true_iff in Hws2 as [-> Hws]. now apply IH.
    - clear -Hws2'. induction ws2' as [|c ws IH]; str_simpl; [reflexivity|].
      simpl in *. apply andb_true_iff in Hws2' as [-> Hws]. now apply IH. }
  unfold JSString.trim. now rewrite Hstart.
Qed.

(** The only place where a given text occurs in a given text, found by
    running through the text. *)
Ltac only_occurrence before Heq :=
  repeat (vm_compute in Heq;
          destruct before as [|? before];
          [ first [ reflexivity | exfalso; vm_compute in Heq; discriminate Heq ]
          | vm_compute in Heq;
            first [ injection Heq as <- Heq | discriminate Heq ] ]).

Lemma parseTranscript_with_frontmatter_witness :
  content (parseTranscript MoreSamples.annTranscript) = "Hello.".
Proof.
  apply (parseTranscript_with_frontmatter
           "" "guest: Ann" "" ("Hello." +:+ JSString.newline));
    [reflexivity | reflexivity |].
  intros before after Heq. only_occurrence before Heq.
Defined.

End LoaderFacts.

(** ** Escaping text for the page *)

Module HtmlFacts.
Import Html JSStringFacts.

Lemma chars_append (a b : string) : chars (a +:+ b) = chars a ++ chars b.
Proof.
  induction a as [|c a IH]; str_simpl; simpl; [reflexivity | now rewrite IH].
Qed.

(** No character reference and no plain character brings markup in. *)
Lemma escapeChar_no_markup (c : ascii) :
  forallb (fun x => negb (Ascii.eqb x "<") && negb (Ascii.eqb x ">")
                    && negb (nat_of_ascii x =? 160)%nat)
          (chars (escapeChar c)) = true.
Proof. NormalFacts.each_code_unit c. Qed.

Lemma escapeChar_plain (c : ascii) :
  c <> "&"%char -> c <> "<"%char -> c <> ">"%char -> c <> ascii_of_nat 160 ->
  escapeChar c = String c EmptyString.
Proof.
  intros Hamp Hlt Hgt Hnbsp. unfold escapeChar.
  rewrite (proj2 (Ascii.eqb_neq c "&") Hamp), (proj2 (Ascii.eqb_neq c "<") Hlt),
    (proj2 (Ascii.eqb_neq c ">") Hgt).
  destruct (Nat.eqb_spec (nat_of_ascii c) 160) as [Heq | _]; [|reflexivity].
  exfalso. apply Hnbsp. now rewrite <- Heq, ascii_nat_embedding.
Qed.

(** The five things a character can become. *)
Lemma escapeChar_cases (c : ascii) :
  (c = "&"%char /\ escapeChar c = "&amp;"%string) \/
  (c = "<"%char /\ escapeChar c = "&lt;"%string) \/
  (c = ">"%char /\ escapeChar c = "&gt;"%string) \/
  (c = ascii_of_nat 160 /\ escapeChar c = "&nbsp;"%string) \/
  (c <> "&"%char /\ escapeChar c = String c EmptyString).
Proof.
  unfold escapeChar.
  destruct (Ascii.eqb_spec c "&"); [now left|].
  destruct (Ascii.eqb_spec c "<"); [right; now left|].
  destruct (Ascii.eqb_spec c ">"); [right; right; now left|].
  destruct (Nat.eqb_spec (nat_of_ascii c) 160) as [Heq|];
    [right; right; right; left | right; right; right; now right].
  split; [|reflexivity]. now rewrite <- Heq, ascii_nat_embedding.
Qed.

(** What one character becomes can be told from what follows. *)
Lemma escapeChar_same (c d : ascii) (rest rest' : string) :
  escapeChar c +:+ rest = escapeChar d +:+ rest' -> c = d /\ rest = rest'.
Proof.
  destruct (escapeChar_cases c) as [[Hc ->] | [[Hc ->] | [[Hc ->] | [[Hc ->] | [Hc ->]]]]],
    (escapeChar_cases d) as [[Hd ->] | [[Hd ->] | [[Hd ->] | [[Hd ->] | [Hd ->]]]]];
    str_simpl; intros Heq; try discriminate Heq;
    injection Heq; intros; subst; try congruence; auto.
Qed.

Lemma escapeChar_not_empty (c : ascii) (rest : string) :
  escapeChar c +:+ rest <> ""%string.
Proof.
  unfold escapeChar.
  repeat (destruct (Ascii.eqb _ _); [discriminate|]).
  destruct (_ =? _)%nat; discriminate.
Qed.

(** X22. The markup [escapeHtml] returns holds no angle bracket and no
    no-break space, whatever the text; a text without ampersand, angle
    bracket and no-break space is returned as it is; and two texts with the
    same markup are the same text. *)
Theorem escapeHtml_safe (text : string) :
  (forall c, In c (chars (escapeHtml text)) ->
     c <> "<"%char /\ c <> ">"%char /\ c <> ascii_of_nat 160) /\
  ((forall c, In c (chars text) ->
      c <> "&"%char /\ c <> "<"%char /\ c <> ">"%char /\ c <> ascii_of_nat 160) ->
   escapeHtml text = text) /\
  (forall text', escapeHtml text = escapeHtml text' -> text = text').
Proof.
  split; [|split].
  - induction text as [|x text IH]; simpl; [intros c []|].
    intros c. rewrite chars_append, in_app_iff. intros [Hc | Hc]; [|now apply IH].
    pose proof (escapeChar_no_markup x) as Hx.
    rewrite forallb_forall in Hx. specialize (Hx c Hc).
    apply andb_true_iff in Hx as [[Hlt Hgt]%andb_true_iff Hnbsp].
    apply negb_true_iff in Hlt, Hgt, Hnbsp.
    apply Ascii.eqb_neq in Hlt, Hgt. apply Nat.eqb_neq in Hnbsp.
    repeat split; try assumption. intros ->. now apply Hnbsp.
  - induction text as [|x text IH]; simpl; [reflexivity|].
    intros Hplain. destruct (Hplain x (or_introl eq_refl)) as (Ha & Hl & Hg & Hn).
    rewrite (escapeChar_plain x Ha Hl Hg Hn), IH; [reflexivity|].
    intros c Hc. apply Hplain. now right.
  - induction text as [|x text IH]; intros [|y text']; simpl.
    + reflexivity.
    + intros Heq. symmetry in Heq. now apply escapeChar_not_empty in Heq.
    + intros Heq. now apply escapeChar_not_empty in Heq.
    + intros Heq. apply escapeChar_same in Heq as [-> Heq].
      now rewrite (IH _ Heq).
Qed.

End HtmlFacts.

(** ** The debounced search box *)

Module DebounceFacts.
Import Debounce.

Section Timer.
Context {Args : Type}.

Lemma run_app (evs evs' : list (Event Args)) (t : Timer Args) :
  run (evs ++ evs') t = run evs' (run evs t).
Proof. apply fold_left_app. Qed.

(** After a run of calls the timer of the last one is pending, and nothing
    has been called that was not before. *)
Lemma run_calls (calls : list Args) (last : Args) (t : Timer Args) :
  run (map Called (calls ++ [last])) t
  = {| pending := Some last; invoked := invoked t |}.
Proof.
  unfold run. revert t.
  induction calls as [|a calls IH]; intros t; [reflexivity|].
  cbn [app map fold_left]. now rewrite IH.
Qed.

Lemma step_sublist (t : Timer Args) (ev : Event Args) (called : list Args) :
  (invoked t ++ waiting t) `sublist_of` called ->
  (invoked (step t ev) ++ waiting (step t ev))
    `sublist_of` (called ++ calledWith [ev]).
Proof.
  intros Hsub. destruct ev as [args|]; cbn [step calledWith flat_map app].
  - unfold executedFunction, waiting. cbn [pending invoked].
    apply sublist_app; [|reflexivity].
    etransitivity; [|exact Hsub]. apply sublist_inserts_r. reflexivity.
  - rewrite app_nil_r. unfold later, waiting in *.
    destruct (pending t) as [args|] eqn:Hp; cbn [pending invoked].
    + now rewrite app_nil_r.
    + rewrite Hp. exact Hsub.
Qed.

Lemma calledWith_app (evs evs' : list (Event Args)) :
  calledWith (evs ++ evs') = calledWith evs ++ calledWith evs'.
Proof. unfold calledWith. apply flat_map_app. Qed.

Lemma run_sublist (events : list (Event Args)) :
  (invoked (run events idle) ++ waiting (run events idle))
    `sublist_of` calledWith events.
Proof.
  induction events as [|ev events IH] using rev_ind; [reflexivity|].
  rewrite run_app, calledWith_app. cbn [run fold_left].
  now apply step_sublist.
Qed.
End Timer.

(** X23. A burst of calls followed by one run of the timer calls the
    function once, with the arguments of the last call.  Whatever the
    events, the function is called only with arguments the debounced
    function was called with, in their order and each at most once.  For
    the search box: after a burst of input events and the run of the
    timer, the page is as [handleSearch] of the last content leaves it. *)
Theorem debounce_last_call {Args : Type} (calls : list Args) (last : Args)
    (events : list (Event Args)) :
  run (map Called (calls ++ [last]) ++ [TimerRuns]) idle
  = {| pending := None; invoked := [last] |} /\
  invoked (run events idle) `sublist_of` calledWith events /\
  (forall (collator : Collator) (values : list string) (value : string)
          (st : AppState),
     searchBox (map Called (values ++ [value]) ++ [TimerRuns]) st
     = App.handleSearch value st).
Proof.
  split; [|split].
  - now rewrite run_app, run_calls.
  - etransitivity; [|apply run_sublist]. apply sublist_inserts_r. reflexivity.
  - intros collator values value st. unfold searchBox.
    now rewrite run_app, run_calls.
Qed.

End DebounceFacts.

(** ** The stored chat configuration *)

Module ChatStorageFacts.
Import ChatStorage.

Lemma inSync_step (p : Page) (ev : ConfigEvent) :
  offered ev -> inSync p -> inSync (configStep p ev).
Proof.
  intros Hev [Hkey Hprovider]. destruct ev as [value | value];
    unfold inSync, getItemOr; cbn [configStep onApiKeyInput onProviderChange
      chatState localStorage Chat.apiKey Chat.provider].
  - rewrite lookup_insert_eq, lookup_insert_ne by discriminate.
    split; [now destruct value | exact Hprovider].
  - rewrite lookup_insert_eq, lookup_insert_ne by discriminate.
    split; [exact Hkey|]. cbn in Hev. now destruct value.
Qed.

(** X24. The key and the provider the chat works with are the ones a
    reload of the page would read back from the storage, after any typing
    in the key field and any choice in the provider list. *)
Theorem config_survives_reload (storage : gmap string string)
    (events : list ConfigEvent) :
  Forall offered events ->
  let p := fold_left configStep events (ChatStorage.open storage) in
  Chat.apiKey (chatState (ChatStorage.open (localStorage p)))
  = Chat.apiKey (chatState p) /\
  Chat.provider (chatState (ChatStorage.open (localStorage p)))
  = Chat.provider (chatState p) /\
  chatState (loadChatConfig p) = chatState p.
Proof.
  intros Hevents. cbv zeta.
  assert (Hsync : inSync (fold_left configStep events (ChatStorage.open storage))).
  { assert (Hopen : inSync (ChatStorage.open storage)) by (split; reflexivity).
    revert Hopen. generalize (ChatStorage.open storage).
    induction Hevents as [|ev events Hev _ IH]; intros p Hp; [exact Hp|].
    apply IH. now apply inSync_step. }
  destruct Hsync as [Hkey Hprovider].
  split; [now rewrite Hkey | split; [now rewrite Hprovider|]].
  unfold loadChatConfig. cbn [chatState]. rewrite <- Hkey, <- Hprovider.
  now destruct (chatState _).
Qed.

Lemma config_survives_reload_witness :
  Chat.provider
    (chatState
       (ChatStorage.open
          (localStorage
             (fold_left configStep [KeyTyped "sk-test"; ProviderChosen "openai"]
                (ChatStorage.open ∅)))))
  = "openai".
Proof.
  refine (eq_trans
            (proj1 (proj2 (config_survives_reload ∅
                             [KeyTyped "sk-test"; ProviderChosen "openai"] _)))
            eq_refl).
  repeat constructor. discriminate.
Defined.

End ChatStorageFacts.

(** ** More on the chat client *)

Module ChatExtras.
Import JSValue Chat ChatAsync ChatFacts Notions.









Lemma sliceLast_sliceLast {A : Type} (n : nat) (h p : list A) :
  JSArray.sliceLast n (JSArray.sliceLast n h ++ p) = JSArray.sliceLast n (h ++ p).
Proof.
  unfold JSArray.sliceLast.
  destruct (Nat.le_gt_cases (length h) n) as [Hle | Hgt].
  - now replace (length h - n) with 0 by lia.
  - rewrite !length_app, length_skipn.
    replace (length h - (length h - n) + length p - n) with (length p) by lia.
    replace (length h + length p - n) with (length p + (length h - n)) by lia.
    rewrite <- skipn_skipn, (skipn_app (length h - n) h p).
    now replace (length h - n - length h) with 0 by lia.
Qed.

(** X26. After any number of successful exchanges the history is the last
    ten turns of the whole conversation: the history before, if it was
    within the cap, followed by all the exchanges. *)
Theorem history_is_recent_turns (xs : list (string * jsval)) (cs : ChatState) :
  length (conversationHistory cs) <= 10 ->
  conversationHistory
    (fold_left (fun cs x => recordExchange (fst x) (snd x) cs) xs cs)
  = JSArray.sliceLast 10 (conversationHistory cs ++ flat_map exchange xs).
Proof.
  revert cs. induction xs as [|x xs IH]; intros cs Hlen; cbn [fold_left flat_map].
  - rewrite app_nil_r. now rewrite JSArrayFacts.sliceLast_all.
  - rewrite IH by apply length_recordExchange.
    rewrite history_recordExchange.
    rewrite sliceLast_sliceLast. now rewrite <- app_assoc.
Qed.

Lemma history_is_recent_turns_witness :
  length
    (conversationHistory
       (fold_left (fun cs x => recordExchange (fst x) (snd x) cs)
          (repeat ("Why?"%string, VStr "Because.") 7)
          (chat (Samples.world "sk-test" "")))) = 10.
Proof.
  rewrite history_is_recent_turns; [reflexivity | cbn; lia].
Defined.

Lemma sendBefore_sendAfter (net : Network) (w : World) :
  sendChatMessage net w =
  match snd (ChatAsync.sendBefore w) with
  | Some p => ChatAsync.sendAfter p (net (pendingRequest p))
                                  (fst (ChatAsync.sendBefore w))
  | None => fst (ChatAsync.sendBefore w)
  end.
Proof.
  unfold sendChatMessage, ChatAsync.sendBefore, ChatAsync.sendAfter,
    ChatAsync.settle, queryAI, queryClaude, queryOpenAI.
  destruct (negb (JSString.truthy (JSString.trim (chatInput w))));
    [reflexivity|].
  destruct (negb (JSString.truthy (apiKey (chat w)))); [reflexivity|].
  cbn [snd fst pendingProvider pendingMessage pendingRequest addChatMessage
       app chat chatInput chatMessages sent].
  destruct (String.eqb (provider (chat w)) "claude").
  - destruct (settleClaude _ _ _) as [cs result]. reflexivity.
  - destruct (settleOpenAI _ _ _) as [cs result]. reflexivity.
Qed.

(** X27. A send with a key configured and a message in the box runs in two
    phases.  Up to the wait for the provider it shows the message, empties
    the box, disables the send button under the label [Sending...] and lets
    one request leave, built from the chat state of that moment.  Once the
    response is there, whatever the page has become in the meantime, it
    adds one bubble under the bubbles shown by then (the reply, or the error),
    records the exchange in the history of that moment or leaves the history
    alone, enables the send button under the label [Send], and leaves the
    box and the log of requests as they are by then.  With nothing in
    between, the two phases make up [sendChatMessage]. *)
Theorem sendChatMessage_phases (w : World) :
  apiKey (chat w) <> ""%string ->
  JSString.trim (chatInput w) <> ""%string ->
  let message := JSString.trim (chatInput w) in
  let w0 := fst (ChatAsync.sendBefore w) in
  exists p,
    snd (ChatAsync.sendBefore w) = Some p /\
    pendingMessage p = message /\
    pendingProvider p = provider (chat w) /\
    (forall net,
       pendingRequest p =
       requestOf (queryAI net message (getContextForChat (app w)) (chat w))) /\
    sent w0 = sent w ++ [pendingRequest p] /\
    chatMessages w0 = chatMessages w ++ [("user"%string, Plain message)] /\
    chatInput w0 = ""%string /\
    sendDisabled w0 = true /\
    sendLabel w0 = "Sending..."%string /\
    chat w0 = chat w /\
    app w0 = app w /\
    (forall (response : JsonResponse) (later : World),
       let outcome := ChatAsync.settle (pendingProvider p) message response
                                       (chat later) in
       let w' := ChatAsync.sendAfter p response later in
       settled message (chat later) outcome /\
       chat w' = fst outcome /\
       chatMessages w' =
         chatMessages later ++
         [match snd outcome with
          | Ok reply => ("assistant"%string, Reply reply)
          | Throw e => ("error"%string, ErrorOf e)
          end] /\
       sendDisabled w' = false /\
       sendLabel w' = "Send"%string /\
       chatInput w' = chatInput later /\
       sent w' = sent later /\
       app w' = app later) /\
    (forall net,
       sendChatMessage net w = ChatAsync.sendAfter p (net (pendingRequest p)) w0).
Proof.
  intros Hkey Hmessage. cbv zeta.
  pose proof (fun net => sendBefore_sendAfter net w) as Hcompose.
  unfold ChatAsync.sendBefore in *.
  apply JSStringFacts.truthy_iff in Hkey, Hmessage.
  rewrite Hkey, Hmessage in *.
  cbn [negb snd fst addChatMessage app chat chatInput chatMessages sent
       sendDisabled sendLabel] in *.
  eexists. split; [reflexivity|].
  cbn [pendingMessage pendingProvider pendingRequest].
  split; [reflexivity | split; [reflexivity | split]].
  { intros net. unfold requestOf, queryAI, queryClaude, queryOpenAI.
    now destruct (String.eqb (provider (chat w)) "claude"). }
  do 7 (split; [reflexivity|]).
  split; [|exact Hcompose].
  intros response later. split; [apply settle_settled|].
  unfold ChatAsync.sendAfter. cbn [pendingMessage pendingProvider].
  destruct (ChatAsync.settle _ _ _ _) as [cs result]. cbn.
  repeat split.
Qed.

Lemma sendChatMessage_phases_witness :
  exists p,
    snd (ChatAsync.sendBefore (Samples.world "sk-test" "Why?")) = Some p /\
    forall later,
      sendDisabled (ChatAsync.sendAfter p
                      (Responded false (Some Samples.overloaded)) later)
      = false.
Proof.
  destruct (sendChatMessage_phases (Samples.world "sk-test" "Why?"))
    as (p & Hp & _ & _ & _ & _ & _ & _ & _ & _ & _ & _ & Hafter & _).
  - discriminate.
  - vm_compute. discriminate.
  - exists p. split; [exact Hp|].
    intros later.
    exact (proj1 (proj2 (proj2 (proj2
             (Hafter (Responded false (Some Samples.overloaded)) later))))).
Defined.

(** Two sends that overlap, the second answered first: the replies are
    shown and recorded in the order of their arrival. *)
Example overlapping_sends :
  let ok text := Responded true (Some (Samples.claudeReply text)) in
  let s := fold_left asyncStep
             [Page (TypeInput "A"); Begin; Page (TypeInput "B"); Begin;
              Finish 1 (ok "to B"); Finish 0 (ok "to A")]
             (Samples.world "sk-test" "", []) in
  chatMessages (fst s)
  = [("user"%string, Plain "A"); ("user"%string, Plain "B");
     ("assistant"%string, Reply (VStr "to B"));
     ("assistant"%string, Reply (VStr "to A"))] /\
  map content (conversationHistory (chat (fst s)))
  = [VStr "B"; VStr "to B"; VStr "A"; VStr "to A"] /\
  length (sent (fst s)) = 2 /\
  snd s = [].
Proof. vm_compute. repeat split. Qed.




End ChatExtras.
